(** * SynHash: a shallow embedding of [SynHash.c] and its properties

    The C program keeps two process-wide 64-bit words [s0], [s1]
    (the state of the [Xorshift128X] generator), folds message bytes
    through the generator ([hashBlock]), accumulates four 64-bit words
    per 32-byte block ([hash]) and prints them in hexadecimal; a second
    entry point, [hammingDistance], scans two such strings back and counts
    the differing bits.

    Conventions of the embedding:
    - a [uint64_t] is a [Z] in [0, 2^64); every C operation that can leave
      that range ([+], [<<]) is followed by an explicit [wrap64];
    - a [size_t] is treated the same way where the C text can overflow;
    - the two static variables are the fields of a record [mixer], threaded
      through every function that touches them by a small state monad;
    - a [const uint8_t *] is the list of bytes that starts at the pointer;
      [p + k] is [skipn k]. *)

From Stdlib Require Import ZArith List Bool Lia Ascii String.
From Stdlib.Strings Require Import Byte.
Import ListNotations.

Local Open Scope Z_scope.

(** ** 64-bit unsigned words *)

Definition two64 : Z := 2 ^ 64.

Definition wrap64 (z : Z) : Z := z mod two64.

Definition u64 (z : Z) : Prop := 0 <= z < two64.

(** ** The generator state: the file-scope variables [s0] and [s1] *)

Record mixer : Type := Mixer { s0 : Z; s1 : Z }.

Definition mixer_ok (st : mixer) : Prop := u64 (s0 st) /\ u64 (s1 st).

(** The static initialisers [s0 = 0], [s1 = 0]. *)
Definition initial_mixer : mixer := Mixer 0 0.

(** A computation that reads and writes the two static variables. *)
Definition M (A : Type) : Type := mixer -> A * mixer.

Definition ret {A : Type} (a : A) : M A := fun st => (a, st).

Definition bind {A B : Type} (m : M A) (k : A -> M B) : M B :=
  fun st => let (a, st') := m st in k a st'.

Declare Scope mixer_scope.
Delimit Scope mixer_scope with mixer.
Notation "x <- m ;; k" := (bind m (fun x => k))
  (at level 61, m at next level, right associativity) : mixer_scope.

(** ** [Xorshift128X] (SynHash.c, lines 15-29) *)

Definition Xorshift128X (x : Z) : M Z := fun st =>
  let c := wrap64 (Z.shiftl x 30) in
  let b := s0 st in
  let a := s1 st in
  let result := wrap64 (a + b) in
  let new_s0 := Z.lxor a c in
  let b := Z.lxor b (wrap64 (Z.shiftl b 23)) in
  let new_s1 := Z.lxor (Z.lxor (Z.lxor b a) (Z.shiftr b 18)) (Z.shiftr a 5) in
  (result, Mixer new_s0 new_s1).

(** The Bit Mixer as the specification words it: the same five steps with
    the roles of the two state words exchanged. *)
Definition spec_mix (x : Z) : M Z := fun st =>
  let c := wrap64 (Z.shiftl x 30) in
  let output := wrap64 (s1 st + s0 st) in
  let new_s0 := Z.lxor (s0 st) c in
  let b := Z.lxor (s1 st) (wrap64 (Z.shiftl (s1 st) 23)) in
  let new_s1 :=
    Z.lxor (Z.lxor (Z.lxor b (s0 st)) (Z.shiftr b 18)) (Z.shiftr (s0 st) 5) in
  (output, Mixer new_s0 new_s1).

(** ** [hashBlock] (SynHash.c, lines 37-51)

    [block] is the memory from the pointer onwards, [length] the second
    argument.  [block[i]] is [nth i block x00]; the C program never reads
    past the 32-byte buffer it passes, so the default is not reached from
    [hash]. *)

Definition byte_at (block : list byte) (i : nat) : byte := nth i block x00.

(** The integer promotion of a [uint8_t] argument to [uint64_t]. *)
Definition widen (b : byte) : Z := Z.of_N (Byte.to_N b).

(** [for (size_t i = 0; i < length; i++) result ^= Xorshift128X(block[i]);]
    with [todo = length - i] iterations left. *)
Fixpoint forward_loop (block : list byte) (i todo : nat) (result : Z) : M Z :=
  match todo with
  | O => ret result
  | S todo' =>
      (o <- Xorshift128X (widen (byte_at block i)) ;;
       forward_loop block (S i) todo' (Z.lxor result o))%mixer
  end.

(** [for (size_t i = length; i > 0; i--) result ^= Xorshift128X(block[i - 1]);] *)
Fixpoint backward_loop (block : list byte) (i : nat) (result : Z) : M Z :=
  match i with
  | O => ret result
  | S i' =>
      (o <- Xorshift128X (widen (byte_at block i')) ;;
       backward_loop block i' (Z.lxor result o))%mixer
  end.

Definition hashBlock (block : list byte) (length : nat) : M Z :=
  (result <- forward_loop block 0 length 0 ;;
   backward_loop block length result)%mixer.

(** The outputs of successive generator calls on a list of inputs, first
    call first, and the state they leave. *)
Fixpoint mix_trace (inputs : list Z) (st : mixer) : list Z * mixer :=
  match inputs with
  | [] => ([], st)
  | x :: rest =>
      let (o, st') := Xorshift128X x st in
      let (os, st'') := mix_trace rest st' in
      (o :: os, st'')
  end.

Definition xor_all (l : list Z) : Z := fold_left Z.lxor l 0.

(** ** [hash] (SynHash.c, lines 59-108) *)

Definition subBlockSize : Z := 8.
Definition blockSize : Z := subBlockSize * 4.

(** [(length + blockSize - 1) / blockSize], then the floor of one block;
    [size_t] arithmetic, so both the sum and the difference wrap. *)
Definition numBlocks (length : Z) : Z :=
  let n := wrap64 (wrap64 (length + blockSize) - 1) / blockSize in
  if 0 <? n then n else 1.

Definition memset (c : byte) (n : Z) : list byte := repeat c (Z.to_nat n).

(** [memcpy(dst, src, n)]: the first [n] bytes of [dst] are replaced by the
    first [n] bytes of [src]. *)
Definition memcpy (dst src : list byte) (n : Z) : list byte :=
  firstn (Z.to_nat n) src ++ skipn (Z.to_nat n) dst.

(** Lines 75-84: the zero-padded copy of block [i]. *)
Definition paddedBlock (message : list byte) (length i : Z) : list byte :=
  let blockStart := wrap64 (i * blockSize) in
  let blockEnd := wrap64 (blockStart + blockSize) in
  let blockLength :=
    if length <? blockEnd then wrap64 (length - blockStart) else blockSize in
  memcpy (memset x00 blockSize) (skipn (Z.to_nat blockStart) message)
         blockLength.

(** [uint64_t finalHash[4]]. *)
Definition words : Type := (Z * Z * Z * Z)%type.

(** Lines 86-102: the eight [hashBlock] calls on one padded block and the
    update of [finalHash]. *)
Definition mix_block (block : list byte) (finalHash : words) : M words :=
  let '(f0, f1, f2, f3) := finalHash in
  let sub := Z.to_nat subBlockSize in
  (blockHash0 <- hashBlock block sub ;;
   blockHash1 <- hashBlock (skipn sub block) sub ;;
   blockHash2 <- hashBlock (skipn (2 * sub)%nat block) sub ;;
   blockHash3 <- hashBlock (skipn (3 * sub)%nat block) sub ;;
   blockHash4 <- hashBlock (skipn (3 * sub)%nat block) sub ;;
   blockHash5 <- hashBlock (skipn (2 * sub)%nat block) sub ;;
   blockHash6 <- hashBlock (skipn sub block) sub ;;
   blockHash7 <- hashBlock block sub ;;
   ret (Z.lxor f0 (Z.lxor blockHash0 blockHash4),
        Z.lxor f1 (Z.lxor blockHash1 blockHash5),
        Z.lxor f2 (Z.lxor blockHash2 blockHash6),
        Z.lxor f3 (Z.lxor blockHash3 blockHash7)))%mixer.

(** [for (size_t i = 0; i < numBlocks; i++) ...] with [todo = numBlocks - i]
    iterations left. *)
Fixpoint block_loop (message : list byte) (length i : Z) (todo : nat)
    (finalHash : words) : M words :=
  match todo with
  | O => ret finalHash
  | S todo' =>
      (finalHash' <- mix_block (paddedBlock message length i) finalHash ;;
       block_loop message length (i + 1) todo' finalHash')%mixer
  end.

(** *** The [%016lx] conversion of [snprintf] *)

Definition hex_alphabet : list ascii :=
  list_ascii_of_string "0123456789abcdef".

Definition hex_char (d : Z) : ascii := nth (Z.to_nat d) hex_alphabet "0"%char.

(** The digits of a non-zero value, least significant produced first and
    pushed in front of the ones already there. *)
Fixpoint lx_digits (fuel : nat) (v : Z) (acc : list ascii) : list ascii :=
  match fuel with
  | O => acc
  | S fuel' =>
      if v =? 0 then acc
      else lx_digits fuel' (v / 16) (hex_char (v mod 16) :: acc)
  end.

(** [%lx]: an [unsigned long] has sixteen nibbles; zero prints as [0]. *)
Definition fmt_lx (v : Z) : list ascii :=
  if v =? 0 then ["0"%char] else lx_digits 16 v [].

(** [%016lx]: minimum field width 16, padded on the left with [0]. *)
Definition fmt_016lx (v : Z) : list ascii :=
  let d := fmt_lx v in
  repeat "0"%char (16 - List.length d) ++ d.

(** [snprintf(output, size, "%016lx%016lx%016lx%016lx", a, b, c, d)]: at most
    [size - 1] characters are stored before the terminating NUL. *)
Definition snprintf_4lx (size : nat) (a b c d : Z) : string :=
  string_of_list_ascii
    (firstn (size - 1) (fmt_016lx a ++ fmt_016lx b ++ fmt_016lx c ++ fmt_016lx d)).

Definition seed0 : Z := 0x5555555555555555.
Definition seed1 : Z := 0xaaaaaaaaaaaaaaaa.

(** [s0 = 0x5555555555555555; s1 = 0xaaaaaaaaaaaaaaaa;] *)
Definition reseed : M unit := fun _ => (tt, Mixer seed0 seed1).

(** The four accumulators after the block loop, before printing. *)
Definition hash_words (message : list byte) (length : Z) : M words :=
  (_ <- reseed ;;
   block_loop message length 0 (Z.to_nat (numBlocks length)) (0, 0, 0, 0))%mixer.

(** [hash(message, length, output)]: the value is the string left in
    [output]. *)
Definition hash (message : list byte) (length : Z) : M string :=
  (finalHash <- hash_words message length ;;
   let '(f0, f1, f2, f3) := finalHash in
   ret (snprintf_4lx 65 f3 f2 f1 f0))%mixer.

(** The call contract of [main]: [length] is the number of bytes of
    [message]. *)
Definition digest (message : list byte) : M string :=
  hash message (Z.of_nat (List.length message)).

(** ** [hammingDistance] (SynHash.c, lines 116-130) *)

(** *** The [%16lx] conversion of [sscanf], as ISO C describes it

    White space is skipped; then at most sixteen characters are taken:
    an optional sign, an optional [0x] or [0X], and hexadecimal digits.
    The conversion fails when no digit was taken.  A NUL character is
    neither white space nor a digit, so scanning never goes past the end of
    a C string. *)

Definition isspace (c : ascii) : bool :=
  let n := Z.of_N (N_of_ascii c) in
  (n =? 32) || ((9 <=? n) && (n <=? 13)).

Definition digit_value (c : ascii) : option Z :=
  let n := Z.of_N (N_of_ascii c) in
  if (48 <=? n) && (n <=? 57) then Some (n - 48)
  else if (97 <=? n) && (n <=? 102) then Some (n - 87)
  else if (65 <=? n) && (n <=? 70) then Some (n - 55)
  else None.

Definition isxdigit (c : ascii) : bool :=
  match digit_value c with Some _ => true | None => false end.

Fixpoint skip_space (s : list ascii) : list ascii :=
  match s with
  | c :: t => if isspace c then skip_space t else s
  | [] => []
  end.

(** Digits are accumulated while the field width lasts; [seen] counts
    them. *)
Fixpoint scan_digits (width : nat) (s : list ascii) (acc : Z) (seen : nat)
    : Z * nat * list ascii :=
  match width with
  | O => (acc, seen, s)
  | S width' =>
      match s with
      | c :: t =>
          match digit_value c with
          | Some d => scan_digits width' t (16 * acc + d) (S seen)
          | None => (acc, seen, s)
          end
      | [] => (acc, seen, s)
      end
  end.

Definition is_x (c : ascii) : bool :=
  (c =? "x")%char || (c =? "X")%char.

(** One [%<width>lx] directive: the value stored and the unread input.
    A minus sign negates the value as an [unsigned long]. *)
Definition scan_lx (width : nat) (s : list ascii) : option (Z * list ascii) :=
  let s := skip_space s in
  let '(neg, s, width) :=
    match s with
    | c :: t =>
        if (c =? "+")%char then (false, t, (width - 1)%nat)
        else if (c =? "-")%char then (true, t, (width - 1)%nat)
        else (false, s, width)
    | [] => (false, s, width)
    end in
  let '(s, width) :=
    match s with
    | c :: x :: t =>
        if (c =? "0")%char && is_x x && (2 <=? width)%nat
        then (t, (width - 2)%nat)
        else (s, width)
    | _ => (s, width)
    end in
  let '(v, seen, rest) := scan_digits width s 0 0 in
  if (seen =? 0)%nat then None
  else Some (if neg : bool then wrap64 (- v) else v, rest).

(** [n] directives [%16lx] in a row; scanning stops at the first one that
    fails.  The result lists the values assigned, in order. *)
Fixpoint sscanf_lx (n : nat) (s : list ascii) : list Z :=
  match n with
  | O => []
  | S n' =>
      match scan_lx 16 s with
      | Some (v, rest) => v :: sscanf_lx n' rest
      | None => []
      end
  end.

(** The array after [sscanf]: the assigned values overwrite a prefix of
    [bin], the other elements keep what they held. *)
Definition assign (bin vals : list Z) : list Z :=
  vals ++ skipn (List.length vals) bin.

(** [while (xorVal) { distance += xorVal & 1; xorVal >>= 1; }]: the pair
    [(xorVal, distance)] when the loop stops or the fuel is spent. *)
Fixpoint count_loop (fuel : nat) (xorVal distance : Z) : Z * Z :=
  match fuel with
  | O => (xorVal, distance)
  | S fuel' =>
      if xorVal =? 0 then (xorVal, distance)
      else count_loop fuel' (Z.shiftr xorVal 1) (distance + Z.land xorVal 1)
  end.

(** [for (int i = 0; i < 4; i++) ...] with [todo = 4 - i]. *)
Fixpoint distance_loop (bin1 bin2 : list Z) (i todo : nat) (distance : Z) : Z :=
  match todo with
  | O => distance
  | S todo' =>
      let xorVal := Z.lxor (nth i bin1 0) (nth i bin2 0) in
      distance_loop bin1 bin2 (S i) todo' (snd (count_loop 64 xorVal distance))
  end.

(** [bin1] and [bin2] are the contents of the two local arrays when the
    function is entered (C leaves them indeterminate).  The function has one
    way out, [return distance]. *)
Definition hammingDistance (hex1 hex2 : string) (bin1 bin2 : list Z) : Z :=
  let bin1 := assign bin1 (sscanf_lx 4 (list_ascii_of_string hex1)) in
  let bin2 := assign bin2 (sscanf_lx 4 (list_ascii_of_string hex2)) in
  distance_loop bin1 bin2 0 4 0.

(** ** Reference descriptions used in the statements below *)

(** The sub-block of a block at offset [8 * k], as a byte sequence. *)
Definition sub_block (block : list byte) (k : nat) : list byte :=
  firstn 8 (skipn (8 * k) block).

(** [hashBlock] run on each byte sequence of a list in turn, one state
    threaded through: the values returned, first call first, and the final
    state. *)
Fixpoint hash_trace (subs : list (list byte)) (st : mixer) : list Z * mixer :=
  match subs with
  | [] => ([], st)
  | b :: rest =>
      let (o, st') := hashBlock b (List.length b) st in
      let (os, st'') := hash_trace rest st' in
      (o :: os, st'')
  end.

(** The least number of [b]-sized pieces that cover [a]. *)
Definition ceil_div (a b : Z) : Z :=
  a / b + (if a mod b =? 0 then 0 else 1).

(** Block [i] of a message as the specification describes it: the slice
    [[32 * i, 32 * i + 32)], cut at the end of the message and filled up to
    32 bytes with zero bytes on the right. *)
Definition spec_block (message : list byte) (i : nat) : list byte :=
  let slice := firstn 32 (skipn (32 * i) message) in
  slice ++ repeat x00 (32 - List.length slice).

(** [mix_block] over a list of blocks, in order. *)
Fixpoint run_blocks (blocks : list (list byte)) (finalHash : words) : M words :=
  match blocks with
  | [] => ret finalHash
  | b :: rest =>
      (finalHash' <- mix_block b finalHash ;; run_blocks rest finalHash')%mixer
  end.

(** A computation keeps words in range: run from a state of 64-bit words
    it returns a value satisfying [P] and leaves a state of 64-bit words. *)
Definition in_range {A : Type} (P : A -> Prop) (m : M A) : Prop :=
  forall st, mixer_ok st -> P (fst (m st)) /\ mixer_ok (snd (m st)).

Definition words_ok (w : words) : Prop :=
  let '(w0, w1, w2, w3) := w in u64 w0 /\ u64 w1 /\ u64 w2 /\ u64 w3.

(** The [n] low hexadecimal digits of [v], most significant first. *)
Fixpoint nibbles (n : nat) (v : Z) : list ascii :=
  match n with
  | O => []
  | S n' => nibbles n' (v / 16) ++ [hex_char (v mod 16)]
  end.

(** Sixteen lowercase hexadecimal digits, most significant first: the
    digit at position [k] from the left has weight [16 ^ (15 - k)]. *)
Definition hex_msb_first (v : Z) : list ascii :=
  map (fun k => hex_char ((v / 16 ^ Z.of_nat (15 - k)) mod 16)) (seq 0 16).

(** The state words after a sequence of earlier [digest] calls. *)
Fixpoint after_digests (earlier : list (list byte)) (st : mixer) : mixer :=
  match earlier with
  | [] => st
  | m :: rest => after_digests rest (snd (digest m st))
  end.

(** The state in which [hash] leaves the two static variables. *)
Definition final_mixer (message : list byte) : mixer :=
  snd (block_loop message (Z.of_nat (List.length message)) 0
         (Z.to_nat (numBlocks (Z.of_nat (List.length message)))) (0, 0, 0, 0)
         (Mixer seed0 seed1)).

Definition empty_digest : string :=
  "7d81bc06988293b549f0f7607044d93296ffeaffaaf9dfef82ca3f40841dae6f".

Definition all_zero_digest : string :=
  string_of_list_ascii (repeat "0"%char 64).

(** A well-formed digest string: 64 characters, all hexadecimal digits. *)
Definition well_formed_digest (hex : string) : bool :=
  (String.length hex =? 64)%nat
  && forallb isxdigit (list_ascii_of_string hex).

Definition digit_or_0 (c : ascii) : Z :=
  match digit_value c with Some d => d | None => 0 end.

(** The number written by a run of hexadecimal digits. *)
Definition hex_value (l : list ascii) : Z :=
  fold_left (fun acc c => 16 * acc + digit_or_0 c) l 0.

(** The [k]-th group of sixteen characters. *)
Definition group (s : list ascii) (k : nat) : list ascii :=
  firstn 16 (skipn (16 * k) s).

(** How many of the bits [0 .. n-1] of [v] are set. *)
Fixpoint bits_set (n : nat) (v : Z) : Z :=
  match n with
  | O => 0
  | S n' => bits_set n' v + Z.b2z (Z.testbit v (Z.of_nat n'))
  end.

(** The number of bit positions in which two digests differ, group by
    group. *)
Definition differing_bits (hex1 hex2 : string) : Z :=
  fold_right
    (fun k acc =>
       bits_set 64
         (Z.lxor (hex_value (group (list_ascii_of_string hex1) k))
                 (hex_value (group (list_ascii_of_string hex2) k)))
       + acc)
    0 (seq 0 4).

Definition zeros64 : string := string_of_list_ascii (repeat "0"%char 64).

(** The bytes given to the generator while one block is hashed, in call
    order: each sub-block forwards then backwards, for the sub-blocks
    0, 1, 2, 3, 3, 2, 1, 0. *)
Definition block_inputs (block : list byte) : list byte :=
  List.concat
    (map (fun k => sub_block block k ++ rev (sub_block block k))
         [0; 1; 2; 3; 3; 2; 1; 0]%nat).

(** The same for a whole message. *)
Definition digest_inputs (message : list byte) : list byte :=
  List.concat
    (map (fun i => block_inputs (spec_block message i))
         (seq 0 (Z.to_nat (numBlocks (Z.of_nat (List.length message)))))).

(** Bitwise xor of two generator states. *)
Definition mixer_xor (st st' : mixer) : mixer :=
  Mixer (Z.lxor (s0 st) (s0 st')) (Z.lxor (s1 st) (s1 st')).

(** ** [main] (SynHash.c, lines 133-150) *)

(** [strlen]: the bytes before the first NUL. *)
Fixpoint strlen (s : list byte) : Z :=
  match s with
  | [] => 0
  | b :: t => if Byte.eqb b x00 then 0 else 1 + strlen t
  end.

(** The [%d] conversion of [printf]. *)
Fixpoint d_digits (fuel : nat) (v : Z) (acc : list ascii) : list ascii :=
  match fuel with
  | O => acc
  | S fuel' =>
      if v =? 0 then acc
      else d_digits fuel' (v / 10)
             (ascii_of_N (Z.to_N (48 + v mod 10)) :: acc)
  end.

(** An [int] has at most ten decimal digits. *)
Definition fmt_d (v : Z) : list ascii :=
  if v =? 0 then ["0"%char]
  else if v <? 0 then "-"%char :: d_digits 10 (- v) []
  else d_digits 10 v [].

(** What [main] writes to standard output and the value it returns.
    [bin1], [bin2] are the initial contents of [hammingDistance]'s arrays. *)
Definition main (bin1 bin2 : list Z) : M (string * Z) :=
  let message := list_byte_of_string "hello, world 1" in
  (hashedValue <- hash message (strlen message) ;;
   let line1 := ("256-bit Hash: " ++ hashedValue ++ String "010" "")%string in
   let message2 := list_byte_of_string "hello, world 2" in
   hashedValue2 <- hash message2 (strlen message2) ;;
   let line2 := ("256-bit Hash: " ++ hashedValue2 ++ String "010" "")%string in
   let distance := hammingDistance hashedValue hashedValue2 bin1 bin2 in
   let line3 :=
     ("Hamming Distance: " ++ string_of_list_ascii (fmt_d distance)
      ++ String "010" "")%string in
   ret ((line1 ++ line2 ++ line3)%string, 0))%mixer.

(** * Properties *)

(** ** Words stay in range *)

Lemma two64_pos : 0 < two64.
Proof. reflexivity. Qed.

Lemma wrap64_u64 (z : Z) : u64 (wrap64 z).
Proof. unfold u64, wrap64. apply Z.mod_pos_bound, two64_pos. Qed.

Lemma wrap64_small (z : Z) : u64 z -> wrap64 z = z.
Proof. unfold u64, wrap64. intros H. now apply Z.mod_small. Qed.

Lemma u64_bits (z : Z) :
  u64 z <-> 0 <= z /\ forall i, 64 <= i -> Z.testbit z i = false.
Proof.
  unfold u64, two64. split.
  - intros [H0 H1]. split; [exact H0|]. intros i Hi.
    rewrite <- (Z.mod_small z (2 ^ 64)) by lia.
    apply Z.mod_pow2_bits_high. lia.
  - intros [H0 Hhigh]. split; [exact H0|].
    destruct (Z.eq_dec z 0) as [->|Hz]; [reflexivity|].
    apply Z.log2_lt_pow2; [lia|].
    destruct (Z_lt_le_dec (Z.log2 z) 64) as [Hl|Hl]; [exact Hl|].
    specialize (Hhigh _ Hl). rewrite Z.bit_log2 in Hhigh by lia. discriminate.
Qed.

Lemma lxor_u64 (a b : Z) : u64 a -> u64 b -> u64 (Z.lxor a b).
Proof.
  rewrite !u64_bits. intros [Ha Ha'] [Hb Hb']. split.
  - now apply Z.lxor_nonneg.
  - intros i Hi. rewrite Z.lxor_spec, Ha', Hb' by assumption. reflexivity.
Qed.

Lemma shiftr_u64 (a n : Z) : 0 <= n -> u64 a -> u64 (Z.shiftr a n).
Proof.
  rewrite !u64_bits. intros Hn [Ha Ha']. split.
  - now apply Z.shiftr_nonneg.
  - intros i Hi. rewrite Z.shiftr_spec by lia. apply Ha'. lia.
Qed.

Lemma u64_0 : u64 0.
Proof. unfold u64, two64. lia. Qed.

Create HintDb u64 discriminated.
#[local] Hint Resolve wrap64_u64 lxor_u64 u64_0 : u64.
#[local] Hint Extern 2 (u64 (Z.shiftr _ _)) =>
  (apply shiftr_u64; [lia|]) : u64.

Lemma Xorshift128X_u64 (x : Z) (st : mixer) :
  mixer_ok st ->
  u64 (fst (Xorshift128X x st)) /\ mixer_ok (snd (Xorshift128X x st)).
Proof.
  intros [H0 H1]. unfold Xorshift128X, mixer_ok. cbn [fst snd s0 s1].
  split; [|split]; auto 10 with u64.
Qed.

(** ** The generator *)

(** C2, as the code has it: the call returns the wrapped sum of the two
    state words; the new [s0] is the old [s1] xor [x << 30]; the new [s1] is
    [b ^ s1 ^ (b >> 18) ^ (s1 >> 5)] with [b = s0 ^ (s0 << 23)] taken from the
    old [s0].  These are the formulas of the specification with the old
    [s0] and the old [s1] exchanged on the right-hand sides. *)
Theorem Xorshift128X_step (x : Z) (st : mixer) :
  let c := wrap64 (Z.shiftl x 30) in
  let b := Z.lxor (s0 st) (wrap64 (Z.shiftl (s0 st) 23)) in
  Xorshift128X x st =
    (wrap64 (s1 st + s0 st),
     Mixer (Z.lxor (s1 st) c)
           (Z.lxor (Z.lxor (Z.lxor b (s1 st)) (Z.shiftr b 18))
                   (Z.shiftr (s1 st) 5)))
  /\ Xorshift128X x st = spec_mix x (Mixer (s1 st) (s0 st)).
Proof.
  split; [reflexivity|].
  unfold Xorshift128X, spec_mix. cbn [s0 s1].
  now rewrite (Z.add_comm (s0 st)).
Qed.

(** C2, as the specification states it, fails: from [s0 = 1], [s1 = 0] and
    input [0] the code leaves [s0 = 0] where the stated formula gives [1]. *)
Lemma Xorshift128X_differs_from_spec_mix :
  Xorshift128X 0 (Mixer 1 0) <> spec_mix 0 (Mixer 1 0)
  /\ s0 (snd (Xorshift128X 0 (Mixer 1 0))) = 0
  /\ Z.lxor (s0 (Mixer 1 0)) (wrap64 (Z.shiftl 0 30)) = 1.
Proof. repeat split. vm_compute. discriminate. Qed.

(** ** The block hasher *)

Lemma mix_trace_app (l1 l2 : list Z) (st : mixer) :
  mix_trace (l1 ++ l2) st =
    (fst (mix_trace l1 st) ++ fst (mix_trace l2 (snd (mix_trace l1 st))),
     snd (mix_trace l2 (snd (mix_trace l1 st)))).
Proof.
  revert st. induction l1 as [|x l1 IH]; intros st; cbn [mix_trace app].
  - cbn [fst snd app]. now destruct (mix_trace l2 st).
  - destruct (Xorshift128X x st) as [o st1]. rewrite IH.
    destruct (mix_trace l1 st1) as [os st2]. reflexivity.
Qed.

Lemma mix_trace_length (l : list Z) (st : mixer) :
  List.length (fst (mix_trace l st)) = List.length l.
Proof.
  revert st. induction l as [|x l IH]; intros st; cbn [mix_trace].
  - reflexivity.
  - destruct (Xorshift128X x st) as [o st1]. specialize (IH st1).
    destruct (mix_trace l st1) as [os st2]. cbn [fst List.length] in *.
    now rewrite IH.
Qed.

Lemma forward_loop_trace (pre l post : list byte) (result : Z) (st : mixer) :
  forward_loop (pre ++ l ++ post) (List.length pre) (List.length l) result st =
    (fold_left Z.lxor (fst (mix_trace (map widen l) st)) result,
     snd (mix_trace (map widen l) st)).
Proof.
  revert pre result st.
  induction l as [|b l IH]; intros pre result st.
  - reflexivity.
  - cbn [List.length forward_loop map mix_trace app]. unfold bind, byte_at.
    rewrite nth_middle.
    destruct (Xorshift128X (widen b) st) as [o st1].
    specialize (IH (pre ++ [b]) (Z.lxor result o) st1).
    rewrite <- app_assoc, length_app, Nat.add_1_r in IH. cbn [app] in IH.
    rewrite IH. destruct (mix_trace (map widen l) st1). reflexivity.
Qed.

Lemma firstn_succ_snoc (block : list byte) (i : nat) :
  (i < List.length block)%nat ->
  firstn (S i) block = firstn i block ++ [byte_at block i].
Proof.
  revert i. induction block as [|b block IH]; intros i Hi; cbn [List.length] in Hi.
  - lia.
  - destruct i as [|i]; [reflexivity|].
    cbn [firstn app]. unfold byte_at in *. cbn [nth].
    now rewrite <- IH by lia.
Qed.

Lemma backward_loop_trace (block : list byte) (i : nat) (result : Z)
    (st : mixer) :
  (i <= List.length block)%nat ->
  backward_loop block i result st =
    (fold_left Z.lxor
       (fst (mix_trace (map widen (rev (firstn i block))) st)) result,
     snd (mix_trace (map widen (rev (firstn i block))) st)).
Proof.
  revert result st. induction i as [|i IH]; intros result st Hi.
  - reflexivity.
  - cbn [backward_loop]. unfold bind.
    rewrite firstn_succ_snoc, rev_app_distr by lia.
    cbn [rev app map mix_trace].
    destruct (Xorshift128X (widen (byte_at block i)) st) as [o st1].
    rewrite IH by lia.
    destruct (mix_trace (map widen (rev (firstn i block))) st1).
    reflexivity.
Qed.

(** The general form: [hashBlock] reads the first [n] bytes at the pointer
    and nothing else. *)
Lemma hashBlock_trace (block : list byte) (n : nat) (st : mixer) :
  (n <= List.length block)%nat ->
  let bytes := firstn n block in
  hashBlock block n st =
    (xor_all (fst (mix_trace (map widen (bytes ++ rev bytes)) st)),
     snd (mix_trace (map widen (bytes ++ rev bytes)) st)).
Proof.
  intros Hn bytes. unfold hashBlock, bind.
  pose proof (forward_loop_trace [] bytes (skipn n block) 0 st) as Hf.
  cbn [app List.length] in Hf. unfold bytes in Hf at 1 2.
  rewrite firstn_skipn, length_firstn, Nat.min_l in Hf by exact Hn.
  rewrite Hf, backward_loop_trace by exact Hn. fold bytes.
  rewrite map_app, mix_trace_app. cbn [fst snd]. unfold xor_all.
  now rewrite fold_left_app.
Qed.

Lemma hashBlock_whole (block : list byte) (st : mixer) :
  hashBlock block (List.length block) st =
    (xor_all (fst (mix_trace (map widen (block ++ rev block)) st)),
     snd (mix_trace (map widen (block ++ rev block)) st)).
Proof.
  pose proof (hashBlock_trace block (List.length block) st (le_n _)) as H.
  cbn zeta in H. now rewrite firstn_all in H.
Qed.

(** C3: on a byte sequence [block] (any length, so in particular at most
    eight), [hashBlock] starts from 0 and xors in the generator outputs for
    the bytes first to last and then last to first, each byte widened, one
    state threaded through all calls; the calls are [2 * length] in
    number. *)
Theorem hashBlock_two_passes (block : list byte) (st : mixer) :
  let inputs := map widen (block ++ rev block) in
  hashBlock block (List.length block) st =
    (xor_all (fst (mix_trace inputs st)), snd (mix_trace inputs st))
  /\ List.length inputs = (2 * List.length block)%nat
  /\ List.length (fst (mix_trace inputs st)) = (2 * List.length block)%nat.
Proof.
  intros inputs. split; [|split].
  - apply hashBlock_whole.
  - unfold inputs. rewrite length_map, length_app, length_rev. lia.
  - rewrite mix_trace_length. unfold inputs.
    rewrite length_map, length_app, length_rev. lia.
Qed.

Example hashBlock_full_sub_block_calls (st : mixer) :
  List.length
    (fst (mix_trace (map widen (repeat x00 8 ++ rev (repeat x00 8))) st)) = 16%nat.
Proof. now rewrite mix_trace_length. Qed.

(** ** One 32-byte block *)

Lemma hashBlock_sub_block (block : list byte) (k : nat) (st : mixer) :
  (8 * k + 8 <= List.length block)%nat ->
  hashBlock (skipn (8 * k) block) 8 st =
    hashBlock (sub_block block k) (List.length (sub_block block k)) st.
Proof.
  intros Hk.
  rewrite (hashBlock_whole (sub_block block k) st).
  apply hashBlock_trace. rewrite length_skipn. lia.
Qed.

(** C5: on a 32-byte block the code makes eight [hashBlock] calls on one
    advancing state, on the sub-blocks 0, 1, 2, 3, 3, 2, 1, 0 in that order,
    and xors into accumulator [k] the value of the forward call on
    sub-block [k] and of the reverse call on sub-block [3 - k]. *)
Theorem mix_block_eight_calls (block : list byte) (h0 h1 h2 h3 : Z)
    (st : mixer) :
  List.length block = 32%nat ->
  let sub := sub_block block in
  exists f0 f1 f2 f3 r3 r2 r1 r0 st',
    hash_trace [sub 0; sub 1; sub 2; sub 3; sub 3; sub 2; sub 1; sub 0]%nat st =
      ([f0; f1; f2; f3; r3; r2; r1; r0], st')
    /\ mix_block block (h0, h1, h2, h3) st =
         ((Z.lxor h0 (Z.lxor f0 r3), Z.lxor h1 (Z.lxor f1 r2),
           Z.lxor h2 (Z.lxor f2 r1), Z.lxor h3 (Z.lxor f3 r0)), st').
Proof.
  intros Hlen sub.
  assert (H0 : forall s, hashBlock block 8 s =
                         hashBlock (sub 0%nat) (List.length (sub 0%nat)) s)
    by (intros s; apply (hashBlock_sub_block block 0); lia).
  assert (H1 : forall s, hashBlock (skipn 8 block) 8 s =
                         hashBlock (sub 1%nat) (List.length (sub 1%nat)) s)
    by (intros s; apply (hashBlock_sub_block block 1); lia).
  assert (H2 : forall s, hashBlock (skipn (2 * 8) block) 8 s =
                         hashBlock (sub 2%nat) (List.length (sub 2%nat)) s)
    by (intros s; apply (hashBlock_sub_block block 2); lia).
  assert (H3 : forall s, hashBlock (skipn (3 * 8) block) 8 s =
                         hashBlock (sub 3%nat) (List.length (sub 3%nat)) s)
    by (intros s; apply (hashBlock_sub_block block 3); lia).
  unfold mix_block, bind. change (Z.to_nat subBlockSize) with 8%nat.
  cbn [hash_trace].
  rewrite H0. destruct (hashBlock (sub 0%nat) _ st) as [f0 t0].
  rewrite H1. destruct (hashBlock (sub 1%nat) _ t0) as [f1 t1].
  rewrite H2. destruct (hashBlock (sub 2%nat) _ t1) as [f2 t2].
  rewrite H3. destruct (hashBlock (sub 3%nat) _ t2) as [f3 t3].
  rewrite H3. destruct (hashBlock (sub 3%nat) _ t3) as [r3 t4].
  rewrite H2. destruct (hashBlock (sub 2%nat) _ t4) as [r2 t5].
  rewrite H1. destruct (hashBlock (sub 1%nat) _ t5) as [r1 t6].
  rewrite H0. destruct (hashBlock (sub 0%nat) _ t6) as [r0 t7].
  exists f0, f1, f2, f3, r3, r2, r1, r0, t7. split; reflexivity.
Qed.

(** ** Splitting the message into blocks *)

Lemma skipn_repeat {A : Type} (a : A) (n m : nat) :
  skipn n (repeat a m) = repeat a (m - n).
Proof.
  revert m. induction n as [|n IH]; intros m.
  - now rewrite Nat.sub_0_r.
  - destruct m as [|m]; [reflexivity|]. cbn [repeat skipn]. apply IH.
Qed.

Ltac size_lia := unfold two64 in *; Z.div_mod_to_equations; lia.

Lemma numBlocks_in_range (L : Z) :
  0 <= L -> L + 31 < two64 -> numBlocks L = Z.max 1 ((L + 31) / 32).
Proof.
  intros H0 H1. unfold numBlocks, wrap64.
  change blockSize with 32.
  rewrite Zminus_mod_idemp_l.
  replace (L + 32 - 1) with (L + 31) by size_lia.
  rewrite Z.mod_small by size_lia.
  destruct (Z.ltb_spec 0 ((L + 31) / 32)); size_lia.
Qed.

Lemma numBlocks_ceil (L : Z) :
  0 <= L -> L + 31 < two64 -> numBlocks L = Z.max 1 (ceil_div L 32).
Proof.
  intros H0 H1. rewrite numBlocks_in_range by assumption.
  f_equal. unfold ceil_div.
  destruct (Z.eqb_spec (L mod 32) 0); size_lia.
Qed.

Lemma paddedBlock_spec_block (message : list byte) (i : nat) :
  let L := Z.of_nat (List.length message) in
  L + 31 < two64 ->
  (i < Z.to_nat (numBlocks L))%nat ->
  paddedBlock message L (Z.of_nat i) = spec_block message i.
Proof.
  intros L HL Hi.
  assert (HL0 : 0 <= L) by (unfold L; lia).
  rewrite numBlocks_in_range in Hi by assumption.
  assert (Hi32 : 32 * Z.of_nat i < Z.max 32 (L + 31))
    by size_lia.
  unfold paddedBlock, spec_block, memcpy, memset, wrap64.
  change blockSize with 32.
  rewrite (Z.mod_small (Z.of_nat i * 32)) by size_lia.
  rewrite (Z.mod_small (Z.of_nat i * 32 + 32)) by size_lia.
  replace (Z.to_nat (Z.of_nat i * 32)) with (32 * i)%nat by size_lia.
  assert (Hskip : List.length (skipn (32 * i) message)
                  = (List.length message - 32 * i)%nat)
    by apply length_skipn.
  destruct (Z.ltb_spec L (Z.of_nat i * 32 + 32)) as [Hlt|Hge].
  - assert (Hnn : 0 <= L - Z.of_nat i * 32) by size_lia.
    rewrite Z.mod_small by size_lia.
    replace (Z.to_nat (L - Z.of_nat i * 32))
      with (List.length (skipn (32 * i) message)) by (unfold L in *; size_lia).
    rewrite firstn_all, firstn_all2 by (unfold L in *; size_lia).
    f_equal. change (Z.to_nat 32) with 32%nat.
    rewrite skipn_repeat. reflexivity.
  - change (Z.to_nat 32) with 32%nat.
    rewrite length_firstn, Nat.min_l by (unfold L in *; size_lia).
    rewrite skipn_repeat. reflexivity.
Qed.

Lemma block_loop_run_blocks (message : list byte) (L : Z) (i todo : nat)
    (finalHash : words) (st : mixer) :
  block_loop message L (Z.of_nat i) todo finalHash st =
    run_blocks (map (fun k => paddedBlock message L (Z.of_nat k)) (seq i todo))
               finalHash st.
Proof.
  revert i finalHash st. induction todo as [|todo IH]; intros i finalHash st.
  - reflexivity.
  - cbn [block_loop seq map run_blocks]. unfold bind.
    destruct (mix_block _ finalHash st) as [fh st1].
    replace (Z.of_nat i + 1) with (Z.of_nat (S i)) by lia.
    apply IH.
Qed.

(** C4: for a message of [L] bytes ([L] small enough for [L + 31] to be a
    [size_t]) the block loop runs [max 1 (ceil (L / 32))] times; the block
    built in round [i] is the slice [[32 i, 32 i + 32)] of the message,
    zero-filled on the right; lengths 31 and 32 give one block and length 33
    gives two. *)
Theorem hash_block_split (message : list byte) (st : mixer) :
  let L := Z.of_nat (List.length message) in
  L + 31 < two64 ->
  numBlocks L = Z.max 1 (ceil_div L 32)
  /\ (forall i, (i < Z.to_nat (numBlocks L))%nat ->
        paddedBlock message L (Z.of_nat i) = spec_block message i)
  /\ hash_words message L st =
       run_blocks
         (map (spec_block message) (seq 0 (Z.to_nat (numBlocks L))))
         (0, 0, 0, 0) (Mixer seed0 seed1)
  /\ (numBlocks 0 = 1 /\ numBlocks 31 = 1 /\ numBlocks 32 = 1
      /\ numBlocks 33 = 2).
Proof.
  intros L HL. split; [|split; [|split]].
  - apply numBlocks_ceil; unfold L; lia.
  - intros i Hi. now apply paddedBlock_spec_block.
  - unfold hash_words, bind, reseed.
    rewrite (block_loop_run_blocks message L 0). f_equal.
    apply map_ext_in. intros i Hi. apply in_seq in Hi.
    apply paddedBlock_spec_block; [exact HL|]. destruct Hi as [_ Hi].
    exact Hi.
  - repeat split.
Qed.

(** ** Range of the accumulators *)

Lemma in_range_ret {A : Type} (P : A -> Prop) (a : A) :
  P a -> in_range P (ret a).
Proof. intros Ha st Hst. now split. Qed.

Lemma in_range_bind {A B : Type} (P : A -> Prop) (Q : B -> Prop)
    (m : M A) (k : A -> M B) :
  in_range P m -> (forall a, P a -> in_range Q (k a)) ->
  in_range Q (bind m k).
Proof.
  intros Hm Hk st Hst. unfold bind.
  destruct (Hm st Hst) as [Ha Hst1]. destruct (m st) as [a st1].
  now apply Hk.
Qed.

Lemma in_range_Xorshift128X (x : Z) : in_range u64 (Xorshift128X x).
Proof. intros st Hst. now apply Xorshift128X_u64. Qed.

Lemma in_range_forward_loop (block : list byte) (i todo : nat) (result : Z) :
  u64 result -> in_range u64 (forward_loop block i todo result).
Proof.
  revert i result. induction todo as [|todo IH]; intros i result Hr.
  - now apply in_range_ret.
  - cbn [forward_loop]. eapply in_range_bind.
    + apply in_range_Xorshift128X.
    + intros o Ho. apply IH. now apply lxor_u64.
Qed.

Lemma in_range_backward_loop (block : list byte) (i : nat) (result : Z) :
  u64 result -> in_range u64 (backward_loop block i result).
Proof.
  revert result. induction i as [|i IH]; intros result Hr.
  - now apply in_range_ret.
  - cbn [backward_loop]. eapply in_range_bind.
    + apply in_range_Xorshift128X.
    + intros o Ho. apply IH. now apply lxor_u64.
Qed.

Lemma in_range_hashBlock (block : list byte) (n : nat) :
  in_range u64 (hashBlock block n).
Proof.
  unfold hashBlock. eapply in_range_bind.
  - apply in_range_forward_loop, u64_0.
  - intros r Hr. now apply in_range_backward_loop.
Qed.

Lemma in_range_mix_block (block : list byte) (finalHash : words) :
  words_ok finalHash -> in_range words_ok (mix_block block finalHash).
Proof.
  destruct finalHash as [[[f0 f1] f2] f3]. intros (H0 & H1 & H2 & H3).
  unfold mix_block.
  repeat (eapply in_range_bind; [apply in_range_hashBlock|intros ? ?]).
  apply in_range_ret. unfold words_ok. auto 10 with u64.
Qed.

Lemma in_range_block_loop (message : list byte) (L i : Z) (todo : nat)
    (finalHash : words) :
  words_ok finalHash ->
  in_range words_ok (block_loop message L i todo finalHash).
Proof.
  revert i finalHash. induction todo as [|todo IH]; intros i finalHash Hf.
  - now apply in_range_ret.
  - cbn [block_loop]. eapply in_range_bind.
    + now apply in_range_mix_block.
    + intros fh Hfh. now apply IH.
Qed.

Lemma seed_ok : mixer_ok (Mixer seed0 seed1).
Proof. split; split; vm_compute; congruence. Qed.

Lemma hash_words_ok (message : list byte) (L : Z) (st : mixer) :
  words_ok (fst (hash_words message L st))
  /\ mixer_ok (snd (hash_words message L st)).
Proof.
  unfold hash_words, bind, reseed.
  apply in_range_block_loop; [|apply seed_ok].
  repeat split; vm_compute; congruence.
Qed.

(** ** Printing the accumulators *)

Lemma hex_char_in_alphabet (d : Z) : 0 <= d < 16 -> In (hex_char d) hex_alphabet.
Proof.
  intros Hd. unfold hex_char. apply nth_In.
  change (List.length hex_alphabet) with 16%nat. lia.
Qed.

Lemma nibbles_length (n : nat) (v : Z) : List.length (nibbles n v) = n.
Proof.
  revert v. induction n as [|n IH]; intros v; cbn [nibbles].
  - reflexivity.
  - rewrite length_app, IH. cbn. lia.
Qed.

Lemma nibbles_in_alphabet (n : nat) (v : Z) :
  Forall (fun c => In c hex_alphabet) (nibbles n v).
Proof.
  revert v. induction n as [|n IH]; intros v; cbn [nibbles].
  - constructor.
  - apply Forall_app. split; [apply IH|].
    constructor; [|constructor].
    apply hex_char_in_alphabet, Z.mod_pos_bound. lia.
Qed.

Lemma nibbles_zero (n : nat) : nibbles n 0 = repeat "0"%char n.
Proof.
  induction n as [|n IH]; cbn [nibbles].
  - reflexivity.
  - change (0 / 16) with 0. rewrite IH.
    change [hex_char (0 mod 16)] with (repeat "0"%char 1).
    rewrite <- repeat_app. f_equal. lia.
Qed.

(** Position [k] of [nibbles n v] is the digit of weight [16 ^ (n - 1 - k)]. *)
Lemma nibbles_weights (n : nat) (v : Z) :
  nibbles n v =
    map (fun k => hex_char ((v / 16 ^ Z.of_nat (n - 1 - k)) mod 16)) (seq 0 n).
Proof.
  revert v. induction n as [|n IH]; intros v.
  - reflexivity.
  - cbn [nibbles]. rewrite seq_S, map_app, IH. cbn [map Nat.add]. f_equal.
    + apply map_ext_in. intros k Hk. apply in_seq in Hk.
      rewrite Z.div_div by lia.
      replace (Z.of_nat (S n - 1 - k)) with (Z.succ (Z.of_nat (n - 1 - k)))
        by lia.
      now rewrite Z.pow_succ_r by lia.
    + replace (S n - 1 - n)%nat with 0%nat by lia.
      now rewrite Z.pow_0_r, Z.div_1_r.
Qed.

Lemma lx_digits_acc (fuel : nat) (v : Z) (acc : list ascii) :
  lx_digits fuel v acc = lx_digits fuel v [] ++ acc.
Proof.
  revert v acc. induction fuel as [|fuel IH]; intros v acc; cbn [lx_digits].
  - reflexivity.
  - destruct (v =? 0); [reflexivity|].
    rewrite IH, (IH _ [_]), <- app_assoc. reflexivity.
Qed.

(** With [n] rounds for a value below [16 ^ n] the digit loop ends with the
    value used up, and padding its digits to width [n] gives all [n]
    nibbles. *)
Lemma lx_digits_padded (n : nat) (v : Z) :
  0 <= v < 16 ^ Z.of_nat n ->
  (List.length (lx_digits n v []) <= n)%nat
  /\ repeat "0"%char (n - List.length (lx_digits n v [])) ++ lx_digits n v []
     = nibbles n v.
Proof.
  revert v. induction n as [|n IH]; intros v Hv.
  - split; reflexivity.
  - cbn [lx_digits nibbles]. destruct (Z.eqb_spec v 0) as [->|Hnz].
    + split; [cbn; lia|]. cbn [List.length]. rewrite Nat.sub_0_r, app_nil_r.
      change (0 / 16) with 0. rewrite nibbles_zero.
      change [hex_char (0 mod 16)] with (repeat "0"%char 1).
      rewrite <- repeat_app. f_equal. lia.
    + rewrite Nat2Z.inj_succ, Z.pow_succ_r in Hv by lia.
      destruct (IH (v / 16)) as [Hlen Hpad]; [Z.div_mod_to_equations; lia|].
      rewrite lx_digits_acc, length_app. cbn [List.length]. split; [lia|].
      rewrite <- Hpad, <- app_assoc. f_equal. f_equal. lia.
Qed.

Lemma fmt_016lx_nibbles (v : Z) : u64 v -> fmt_016lx v = nibbles 16 v.
Proof.
  intros Hv. unfold fmt_016lx, fmt_lx.
  destruct (Z.eqb_spec v 0) as [->|Hnz]; [reflexivity|].
  apply lx_digits_padded. exact Hv.
Qed.

Lemma hex_msb_first_nibbles (v : Z) : hex_msb_first v = nibbles 16 v.
Proof. symmetry. apply (nibbles_weights 16). Qed.

Lemma fmt_016lx_msb_first (v : Z) : u64 v -> fmt_016lx v = hex_msb_first v.
Proof.
  intros Hv. rewrite fmt_016lx_nibbles by exact Hv.
  symmetry. apply hex_msb_first_nibbles.
Qed.

Lemma string_length_of_list (l : list ascii) :
  String.length (string_of_list_ascii l) = List.length l.
Proof. induction l as [|c l IH]; cbn; congruence. Qed.

(** C6: whatever the message, the string left in [output] is the four
    accumulators in the order [finalHash[3]], [finalHash[2]], [finalHash[1]],
    [finalHash[0]], each as sixteen digits most significant first; it has 64
    characters and each of them is one of [0123456789abcdef]. *)
Theorem hash_output_format (message : list byte) (L : Z) (st : mixer) :
  let '(h0, h1, h2, h3) := fst (hash_words message L st) in
  let out := fst (hash message L st) in
  out = string_of_list_ascii
          (hex_msb_first h3 ++ hex_msb_first h2 ++ hex_msb_first h1
           ++ hex_msb_first h0)
  /\ String.length out = 64%nat
  /\ Forall (fun c => In c hex_alphabet) (list_ascii_of_string out).
Proof.
  pose proof (hash_words_ok message L st) as [Hw _].
  unfold hash, bind. destruct (hash_words message L st) as [[[[h0 h1] h2] h3] st1].
  cbn [fst] in *. destruct Hw as (H0 & H1 & H2 & H3).
  unfold ret, snprintf_4lx. cbn [fst].
  rewrite !fmt_016lx_nibbles by assumption.
  rewrite firstn_all2
    by (rewrite !length_app, !nibbles_length; cbn; lia).
  rewrite !hex_msb_first_nibbles.
  split; [|split].
  - reflexivity.
  - rewrite string_length_of_list.
    rewrite !length_app, !nibbles_length. reflexivity.
  - rewrite list_ascii_of_string_of_list_ascii.
    rewrite !Forall_app. repeat split; apply nibbles_in_alphabet.
Qed.

(** ** The state words before and after [hash] *)

Lemma hash_from_seed (message : list byte) (L : Z) (st : mixer) :
  hash_words message L st =
    block_loop message L 0 (Z.to_nat (numBlocks L)) (0, 0, 0, 0)
               (Mixer seed0 seed1).
Proof. reflexivity. Qed.

Lemma hash_ignores_state (message : list byte) (L : Z) (st st' : mixer) :
  hash message L st = hash message L st'.
Proof. unfold hash, bind. now rewrite !hash_from_seed. Qed.

(** C7: the string returned for a message does not depend on what the two
    state words held before the call, hence not on any earlier calls: the
    computation starts from [s0 = 0x5555555555555555],
    [s1 = 0xaaaaaaaaaaaaaaaa] every time. *)
Theorem digest_reproducible (message : list byte)
    (earlier : list (list byte)) (st st' : mixer) :
  fst (digest message st) = fst (digest message st')
  /\ fst (digest message (after_digests earlier st)) = fst (digest message st)
  /\ snd (reseed st) = Mixer 0x5555555555555555 0xaaaaaaaaaaaaaaaa
  /\ hash_words message (Z.of_nat (List.length message)) st =
       block_loop message (Z.of_nat (List.length message)) 0
         (Z.to_nat (numBlocks (Z.of_nat (List.length message)))) (0, 0, 0, 0)
         (snd (reseed st)).
Proof.
  unfold digest. split; [|split; [|split]].
  - now rewrite (hash_ignores_state _ _ st st').
  - now rewrite (hash_ignores_state _ _ (after_digests earlier st) st).
  - reflexivity.
  - apply hash_from_seed.
Qed.

Lemma digest_final_mixer (message : list byte) (st : mixer) :
  snd (digest message st) = final_mixer message.
Proof.
  unfold digest, hash, bind, final_mixer. rewrite hash_from_seed.
  destruct (block_loop _ _ _ _ _ _) as [[[[f0 f1] f2] f3] st1]. reflexivity.
Qed.

(** C9, as the code has it: [s0] and [s1] are file-scope variables and
    [hash] overwrites them.  After the call they hold the state reached from
    the seed through the generator calls of this message, whatever they held
    before; so the call leaves them as they were only when they already held
    that very state. *)
Theorem digest_overwrites_state (message : list byte) (st : mixer) :
  snd (digest message st) = final_mixer message
  /\ mixer_ok (snd (digest message st))
  /\ (snd (digest message st) = st <-> st = final_mixer message).
Proof.
  split; [apply digest_final_mixer|split].
  - unfold digest, hash, bind.
    pose proof (hash_words_ok message (Z.of_nat (List.length message)) st)
      as [_ Hok].
    destruct (hash_words _ _ st) as [[[[f0 f1] f2] f3] st1]. exact Hok.
  - rewrite digest_final_mixer. split; congruence.
Qed.

(** C9, as the specification states it, fails: called with both state words
    0 (their static initial values) on the empty message, [hash] returns with
    the words changed. *)
Lemma digest_changes_state :
  snd (digest [] initial_mixer) <> initial_mixer.
Proof. vm_compute. discriminate. Qed.

(** ** The empty message *)

(** C10: for the empty message the loop runs once, on a block of 32 zero
    bytes, and the string returned is the fixed value [empty_digest], which
    is not the string of 64 zeros. *)
Theorem digest_empty_message (st : mixer) :
  fst (digest [] st) = empty_digest
  /\ numBlocks 0 = 1
  /\ paddedBlock [] 0 0 = repeat x00 32
  /\ hash_words [] 0 st =
       mix_block (repeat x00 32) (0, 0, 0, 0) (Mixer seed0 seed1)
  /\ String.length empty_digest = 64%nat
  /\ empty_digest <> all_zero_digest.
Proof.
  split; [|split; [|split; [|split; [|split]]]].
  - unfold digest. rewrite (hash_ignores_state _ _ st initial_mixer).
    vm_compute. reflexivity.
  - reflexivity.
  - reflexivity.
  - unfold hash_words, bind, reseed.
    change (Z.to_nat (numBlocks 0)) with 1%nat. cbn [block_loop]. unfold bind.
    change (paddedBlock [] 0 0) with (repeat x00 32).
    now destruct (mix_block _ _ _).
  - reflexivity.
  - vm_compute. discriminate.
Qed.

(** ** The two messages of [main] *)

Example digest_hello_world_1 (st : mixer) :
  fst (digest (list_byte_of_string "hello, world 1") st) =
    "a5031d605094d17e3c084fb444398c54dd2b4d13d995c2833dcd300b34e96081"%string.
Proof.
  unfold digest. rewrite (hash_ignores_state _ _ st initial_mixer).
  vm_compute. reflexivity.
Qed.

Example digest_hello_world_2 (st : mixer) :
  fst (digest (list_byte_of_string "hello, world 2") st) =
    "256fe186d7ccc5cfd10b48d0409ea04d037a535fe15e7f97344e3f84637c06b8"%string.
Proof.
  unfold digest. rewrite (hash_ignores_state _ _ st initial_mixer).
  vm_compute. reflexivity.
Qed.

Example distance_hello_world :
  hammingDistance
    "a5031d605094d17e3c084fb444398c54dd2b4d13d995c2833dcd300b34e96081"
    "256fe186d7ccc5cfd10b48d0409ea04d037a535fe15e7f97344e3f84637c06b8"
    [0; 0; 0; 0] [0; 0; 0; 0] = 118.
Proof. vm_compute. reflexivity. Qed.

(** ** The generator step is one-to-one *)

Lemma wrap64_testbit (z i : Z) :
  Z.testbit (wrap64 z) i = if i <? 64 then Z.testbit z i else false.
Proof.
  unfold wrap64, two64. destruct (Z.ltb_spec i 64).
  - destruct (Z_lt_le_dec i 0).
    + now rewrite !Z.testbit_neg_r.
    + apply Z.mod_pow2_bits_low. lia.
  - apply Z.mod_pow2_bits_high. lia.
Qed.

Lemma u64_high_bit (z i : Z) : u64 z -> 64 <= i -> Z.testbit z i = false.
Proof. intros Hz. now apply u64_bits. Qed.

Lemma lxor_cancel_r (a b c : Z) : Z.lxor a c = Z.lxor b c -> a = b.
Proof.
  intros H. apply (f_equal (fun z => Z.lxor z c)) in H.
  now rewrite !Z.lxor_assoc, !Z.lxor_nilpotent, !Z.lxor_0_r in H.
Qed.

Lemma xorb_cancel_r (p q r : bool) : xorb p r = xorb q r -> p = q.
Proof. now destruct p, q, r. Qed.

(** [b ^= b << 23] loses nothing: bit [i] of the result fixes bit [i] of [b]
    once the bits below are known. *)
Lemma xor_shiftl_injective (a b : Z) :
  u64 a -> u64 b ->
  Z.lxor a (wrap64 (Z.shiftl a 23)) = Z.lxor b (wrap64 (Z.shiftl b 23)) ->
  a = b.
Proof.
  intros Ha Hb H. apply Z.bits_inj'. intros i Hi.
  induction i as [i IH] using (well_founded_induction (Z.lt_wf 0)).
  destruct (Z_lt_le_dec i 64) as [Hlt|Hge].
  - apply (f_equal (fun z => Z.testbit z i)) in H.
    rewrite !Z.lxor_spec, !wrap64_testbit, !Z.shiftl_spec in H by lia.
    destruct (Z.ltb_spec i 64); [|lia].
    destruct (Z_lt_le_dec i 23).
    + rewrite !(Z.testbit_neg_r _ (i - 23)), !xorb_false_r in H by lia.
      exact H.
    + rewrite (IH (i - 23)) in H by lia.
      exact (xorb_cancel_r _ _ _ H).
  - now rewrite !u64_high_bit.
Qed.

(** [b ^ (b >> 18)] loses nothing either, reading the bits from the top. *)
Lemma xor_shiftr_injective (a b : Z) :
  u64 a -> u64 b ->
  Z.lxor a (Z.shiftr a 18) = Z.lxor b (Z.shiftr b 18) -> a = b.
Proof.
  intros Ha Hb H.
  assert (Hbits : forall n i, 64 - Z.of_nat n <= i ->
                              Z.testbit a i = Z.testbit b i).
  { induction n as [|n IH]; intros i Hi.
    - now rewrite !u64_high_bit by (assumption || lia).
    - destruct (Z_lt_le_dec i 0); [now rewrite !Z.testbit_neg_r|].
      apply (f_equal (fun z => Z.testbit z i)) in H.
      rewrite !Z.lxor_spec, !Z.shiftr_spec in H by lia.
      rewrite (IH (i + 18)) in H by lia.
      exact (xorb_cancel_r _ _ _ H). }
  apply Z.bits_inj'. intros i Hi. apply (Hbits 64%nat). lia.
Qed.

(** C8, as the code has it: every call replaces the state by its successor,
    and for a given input the successor determines the state it came from;
    two different states are never advanced to the same one.  What a call
    returns is the wrapped sum of the two words it found, and nothing makes
    these sums differ from call to call. *)
Theorem Xorshift128X_step_injective (x : Z) (st st' : mixer) :
  mixer_ok st -> mixer_ok st' ->
  snd (Xorshift128X x st) = snd (Xorshift128X x st') -> st = st'.
Proof.
  intros [H0 H1] [H0' H1'] H.
  destruct st as [a0 a1], st' as [b0 b1].
  pose proof (f_equal s0 H) as Hs0. pose proof (f_equal s1 H) as Hs1.
  clear H. unfold Xorshift128X in Hs0, Hs1. cbv beta iota zeta delta [snd s0 s1] in *.
  apply lxor_cancel_r in Hs0. subst b1.
  apply lxor_cancel_r in Hs1.
  set (ta := Z.lxor a0 (wrap64 (Z.shiftl a0 23))) in *.
  set (tb := Z.lxor b0 (wrap64 (Z.shiftl b0 23))) in *.
  assert (Ht : Z.lxor ta (Z.shiftr ta 18) = Z.lxor tb (Z.shiftr tb 18)).
  { apply Z.bits_inj'. intros i _.
    apply (f_equal (fun z => Z.testbit z i)) in Hs1.
    repeat rewrite Z.lxor_spec in Hs1. rewrite !Z.lxor_spec.
    destruct (Z.testbit ta i), (Z.testbit tb i), (Z.testbit a1 i),
      (Z.testbit (Z.shiftr ta 18) i), (Z.testbit (Z.shiftr tb 18) i);
      cbn in *; congruence. }
  apply xor_shiftr_injective in Ht; [|subst ta; auto with u64
                                      |subst tb; auto with u64].
  apply xor_shiftl_injective in Ht; [|assumption|assumption].
  now subst.
Qed.

(** C8, as the specification states it, fails: with both state words 0 and
    input byte 0 the state does not move, two successive calls return the
    same value, and the sixteen outputs inside one [hashBlock] call on eight
    zero bytes are all 0. *)
Lemma Xorshift128X_repeats_output :
  fst (Xorshift128X (widen x00) initial_mixer) =
    fst (Xorshift128X (widen x00)
           (snd (Xorshift128X (widen x00) initial_mixer)))
  /\ ~ NoDup (fst (mix_trace
                     (map widen (repeat x00 8 ++ rev (repeat x00 8)))
                     initial_mixer)).
Proof.
  split; [reflexivity|].
  intros H. vm_compute in H. apply NoDup_cons_iff in H.
  destruct H as [H _]. apply H. now left.
Qed.

(** ** Counting bits *)

Lemma bits_set_zero (n : nat) : bits_set n 0 = 0.
Proof.
  induction n as [|n IH]; cbn [bits_set]; [reflexivity|].
  now rewrite IH, Z.testbit_0_l.
Qed.

Lemma bits_set_bounds (n : nat) (v : Z) : 0 <= bits_set n v <= Z.of_nat n.
Proof.
  induction n as [|n IH]; cbn [bits_set]; [lia|].
  destruct (Z.testbit v (Z.of_nat n)); cbn [Z.b2z]; lia.
Qed.

(** Counting from the bottom instead: bit 0, then the bits of [v >> 1]. *)
Lemma bits_set_shiftr (n : nat) (v : Z) :
  bits_set (S n) v = Z.b2z (Z.testbit v 0) + bits_set n (Z.shiftr v 1).
Proof.
  induction n as [|n IH].
  - cbn [bits_set Z.of_nat]. lia.
  - change (bits_set (S (S n)) v)
      with (bits_set (S n) v + Z.b2z (Z.testbit v (Z.of_nat (S n)))).
    rewrite IH. cbn [bits_set]. rewrite Z.shiftr_spec by lia.
    replace (Z.of_nat n + 1) with (Z.of_nat (S n)) by lia. lia.
Qed.

(** The [while] loop of [hammingDistance] on a value below [2 ^ n] stops by
    its own test within [n] rounds, having added the number of set bits. *)
Lemma count_loop_bits_set (n : nat) (xorVal distance : Z) :
  0 <= xorVal < 2 ^ Z.of_nat n ->
  count_loop n xorVal distance = (0, distance + bits_set n xorVal).
Proof.
  revert xorVal distance. induction n as [|n IH]; intros x d Hx.
  - cbn [count_loop bits_set]. change (2 ^ Z.of_nat 0) with 1 in Hx.
    replace x with 0 by lia. now rewrite Z.add_0_r.
  - cbn [count_loop]. destruct (Z.eqb_spec x 0) as [->|Hnz].
    + now rewrite bits_set_zero, Z.add_0_r.
    + rewrite Nat2Z.inj_succ, Z.pow_succ_r in Hx by lia.
      rewrite IH by (rewrite Z.shiftr_div_pow2 by lia; change (2 ^ 1) with 2;
                     Z.div_mod_to_equations; lia).
      rewrite bits_set_shiftr. f_equal.
      change 1 with (Z.ones 1) at 1. rewrite Z.land_ones by lia.
      change (2 ^ 1) with 2. rewrite <- Z.bit0_mod. lia.
Qed.

Lemma count_loop_64 (xorVal distance : Z) :
  u64 xorVal ->
  count_loop 64 xorVal distance = (0, distance + bits_set 64 xorVal).
Proof. intros H. now apply count_loop_bits_set. Qed.

(** More fuel changes nothing: the loop has already stopped. *)
Lemma count_loop_fuel (n m : nat) (xorVal distance : Z) :
  0 <= xorVal < 2 ^ Z.of_nat n -> (n <= m)%nat ->
  count_loop m xorVal distance = count_loop n xorVal distance.
Proof.
  revert m xorVal distance. induction n as [|n IH]; intros m x d Hx Hm.
  - change (2 ^ Z.of_nat 0) with 1 in Hx. replace x with 0 by lia.
    now destruct m.
  - destruct m as [|m]; [lia|]. cbn [count_loop].
    destruct (Z.eqb_spec x 0) as [->|Hnz]; [reflexivity|].
    rewrite Nat2Z.inj_succ, Z.pow_succ_r in Hx by lia.
    apply IH; [|lia].
    rewrite Z.shiftr_div_pow2 by lia. change (2 ^ 1) with 2.
    Z.div_mod_to_equations; lia.
Qed.

(** ** Scanning a digest *)

Lemma xdigit_plain (c : ascii) :
  isxdigit c = true ->
  isspace c = false /\ (c =? "+")%char = false /\ (c =? "-")%char = false
  /\ is_x c = false.
Proof.
  destruct c as [[] [] [] [] [] [] [] []]; vm_compute; intros H;
    try discriminate H; repeat split.
Qed.

Lemma digit_value_bounds (c : ascii) (d : Z) :
  digit_value c = Some d -> 0 <= d < 16.
Proof.
  unfold digit_value.
  repeat match goal with
         | |- context [if ?b then _ else _] => destruct b eqn:?
         end; intros H; inversion H; subst; lia.
Qed.

Lemma digit_or_0_bounds (c : ascii) : 0 <= digit_or_0 c < 16.
Proof.
  unfold digit_or_0. destruct (digit_value c) as [d|] eqn:Hd; [|lia].
  now apply digit_value_bounds in Hd.
Qed.

Lemma xdigit_value (c : ascii) :
  isxdigit c = true -> digit_value c = Some (digit_or_0 c).
Proof.
  unfold isxdigit, digit_or_0. now destruct (digit_value c).
Qed.

Lemma scan_digits_all (width : nat) (s : list ascii) (acc : Z) (seen : nat) :
  (width <= List.length s)%nat ->
  forallb isxdigit (firstn width s) = true ->
  scan_digits width s acc seen =
    (fold_left (fun a c => 16 * a + digit_or_0 c) (firstn width s) acc,
     (seen + width)%nat, skipn width s).
Proof.
  revert s acc seen. induction width as [|width IH]; intros s acc seen Hlen Hx.
  - cbn. now rewrite Nat.add_0_r.
  - destruct s as [|c t]; [cbn in Hlen; lia|].
    cbn [firstn forallb] in Hx. apply andb_true_iff in Hx as [Hc Ht].
    cbn [scan_digits firstn skipn fold_left].
    rewrite (xdigit_value c Hc), IH by (cbn in Hlen; lia || assumption).
    now rewrite Nat.add_succ_r.
Qed.

Lemma scan_lx_group (s : list ascii) :
  (16 <= List.length s)%nat ->
  forallb isxdigit (firstn 16 s) = true ->
  scan_lx 16 s = Some (hex_value (group s 0), skipn 16 s).
Proof.
  intros Hlen Hx.
  destruct s as [|c0 [|c1 t]]; [cbn in Hlen; lia|cbn in Hlen; lia|].
  assert (H01 : isxdigit c0 = true /\ isxdigit c1 = true).
  { change (firstn 16 (c0 :: c1 :: t)) with (c0 :: c1 :: firstn 14 t) in Hx.
    cbn [forallb] in Hx. apply andb_true_iff in Hx as [H0 Hx].
    apply andb_true_iff in Hx as [H1 _]. now split. }
  destruct H01 as [H0 H1].
  destruct (xdigit_plain c0 H0) as (Hsp & Hplus & Hminus & _).
  destruct (xdigit_plain c1 H1) as (_ & _ & _ & Hx1).
  unfold scan_lx. cbn [skip_space]. rewrite Hsp, Hplus, Hminus, Hx1.
  rewrite andb_false_r. cbn [andb]. cbv beta iota zeta.
  rewrite scan_digits_all by assumption. reflexivity.
Qed.

Lemma sscanf_lx_groups (n : nat) (s : list ascii) :
  List.length s = (16 * n)%nat ->
  forallb isxdigit s = true ->
  sscanf_lx n s = map (fun k => hex_value (group s k)) (seq 0 n).
Proof.
  revert s. induction n as [|n IH]; intros s Hlen Hx.
  - reflexivity.
  - rewrite <- (firstn_skipn 16 s), forallb_app in Hx.
    apply andb_true_iff in Hx as [Hhead Htail].
    cbn [sscanf_lx]. rewrite scan_lx_group by (assumption || lia).
    rewrite IH by (assumption || rewrite length_skipn; lia).
    cbn [seq map]. f_equal. rewrite <- seq_shift, map_map.
    apply map_ext. intros k. unfold group. rewrite skipn_skipn.
    do 3 f_equal. lia.
Qed.

Lemma hex_value_bounds (l : list ascii) :
  0 <= hex_value l < 16 ^ Z.of_nat (List.length l).
Proof.
  unfold hex_value.
  assert (H : forall acc, 0 <= acc ->
            0 <= fold_left (fun a c => 16 * a + digit_or_0 c) l acc
            < (acc + 1) * 16 ^ Z.of_nat (List.length l)).
  { induction l as [|c l IH]; intros acc Hacc.
    - cbn. lia.
    - cbn [fold_left List.length]. pose proof (digit_or_0_bounds c) as Hc.
      specialize (IH (16 * acc + digit_or_0 c) ltac:(lia)).
      rewrite Nat2Z.inj_succ, Z.pow_succ_r by lia.
      assert (0 < 16 ^ Z.of_nat (List.length l)) by (apply Z.pow_pos_nonneg; lia).
      nia. }
  specialize (H 0 ltac:(lia)). lia.
Qed.

Lemma group_value_u64 (s : list ascii) (k : nat) : u64 (hex_value (group s k)).
Proof.
  pose proof (hex_value_bounds (group s k)) as H.
  assert (Hlen : (List.length (group s k) <= 16)%nat)
    by (unfold group; rewrite length_firstn; lia).
  unfold u64, two64. split; [lia|].
  eapply Z.lt_le_trans; [apply H|].
  change (2 ^ 64) with (16 ^ 16). apply Z.pow_le_mono_r; lia.
Qed.

Lemma scan_digits_bounds (width : nat) (s : list ascii) (acc : Z) (seen : nat) :
  0 <= acc < 16 ^ Z.of_nat seen ->
  let '(v, seen', _) := scan_digits width s acc seen in
  0 <= v < 16 ^ Z.of_nat seen' /\ (seen' <= seen + width)%nat.
Proof.
  revert s acc seen. induction width as [|width IH]; intros s acc seen Hacc.
  - cbn [scan_digits]. split; [exact Hacc|lia].
  - cbn [scan_digits]. destruct s as [|c t]; [split; [exact Hacc|lia]|].
    destruct (digit_value c) as [d|] eqn:Hd; [|split; [exact Hacc|lia]].
    apply digit_value_bounds in Hd.
    specialize (IH t (16 * acc + d) (S seen)).
    destruct (scan_digits width t (16 * acc + d) (S seen)) as [[v seen'] rest].
    rewrite Nat2Z.inj_succ, Z.pow_succ_r in IH by lia.
    destruct IH as [Hv Hs]; [lia|]. split; [exact Hv|lia].
Qed.

(** Whatever the input, a value stored by [%16lx] is a 64-bit word. *)
Lemma scan_lx_u64 (s rest : list ascii) (v : Z) :
  scan_lx 16 s = Some (v, rest) -> u64 v.
Proof.
  unfold scan_lx.
  set (s1 := skip_space s).
  destruct (match s1 with
            | c :: t =>
                if (c =? "+")%char then (false, t, (16 - 1)%nat)
                else if (c =? "-")%char then (true, t, (16 - 1)%nat)
                else (false, s1, 16%nat)
            | [] => (false, s1, 16%nat)
            end) as [[neg s2] w2] eqn:Hsign.
  assert (Hw2 : (w2 <= 16)%nat).
  { destruct s1 as [|c t]; [now inversion Hsign|].
    destruct (c =? "+")%char; [inversion Hsign; lia|].
    destruct (c =? "-")%char; inversion Hsign; lia. }
  destruct (match s2 with
            | c :: x :: t =>
                if (c =? "0")%char && is_x x && (2 <=? w2)%nat
                then (t, (w2 - 2)%nat) else (s2, w2)
            | _ => (s2, w2)
            end) as [s3 w3] eqn:Hprefix.
  assert (Hw3 : (w3 <= 16)%nat).
  { destruct s2 as [|c [|x t]]; try (inversion Hprefix; lia).
    destruct ((c =? "0")%char && is_x x && (2 <=? w2)%nat);
      inversion Hprefix; lia. }
  pose proof (scan_digits_bounds w3 s3 0 0 ltac:(cbn; lia)) as Hb.
  destruct (scan_digits w3 s3 0 0) as [[d seen] r].
  destruct (seen =? 0)%nat; [discriminate|].
  intros H. injection H as <- _. destruct neg; [apply wrap64_u64|].
  destruct Hb as [Hd Hseen]. unfold u64, two64. split; [lia|].
  eapply Z.lt_le_trans; [apply Hd|].
  change (2 ^ 64) with (16 ^ 16). apply Z.pow_le_mono_r; lia.
Qed.

Lemma sscanf_lx_u64 (n : nat) (s : list ascii) : Forall u64 (sscanf_lx n s).
Proof.
  revert s. induction n as [|n IH]; intros s; cbn [sscanf_lx].
  - constructor.
  - destruct (scan_lx 16 s) as [[v rest]|] eqn:Hscan; [|constructor].
    constructor; [now apply scan_lx_u64 in Hscan|apply IH].
Qed.

Lemma assign_u64 (bin vals : list Z) :
  Forall u64 bin -> Forall u64 vals -> Forall u64 (assign bin vals).
Proof.
  intros Hb Hv. unfold assign. apply Forall_app. split; [exact Hv|].
  rewrite <- (firstn_skipn (List.length vals) bin) in Hb.
  now apply Forall_app in Hb.
Qed.

Lemma nth_u64 (l : list Z) (k : nat) : Forall u64 l -> u64 (nth k l 0).
Proof.
  intros Hl. destruct (Nat.lt_ge_cases k (List.length l)) as [Hk|Hk].
  - rewrite Forall_forall in Hl. now apply Hl, nth_In.
  - rewrite nth_overflow by exact Hk. apply u64_0.
Qed.

(** ** The distance loop *)

Lemma distance_loop_bits (bin1 bin2 : list Z) (todo i : nat) (distance : Z) :
  (forall k, (i <= k < i + todo)%nat ->
             u64 (nth k bin1 0) /\ u64 (nth k bin2 0)) ->
  distance_loop bin1 bin2 i todo distance =
    distance
    + fold_right
        (fun k acc => bits_set 64 (Z.lxor (nth k bin1 0) (nth k bin2 0)) + acc)
        0 (seq i todo).
Proof.
  revert i distance.
  induction todo as [|todo IH]; intros i distance Hk.
  - cbn. lia.
  - cbn [distance_loop seq fold_right].
    rewrite count_loop_64 by (apply lxor_u64; apply Hk; lia).
    cbn [snd]. rewrite IH by (intros k Hik; apply Hk; lia). lia.
Qed.

(** X1: On every input the function returns an ordinary count: there is no
    value set aside for an error. *)
Lemma hammingDistance_range (hex1 hex2 : string) (bin1 bin2 : list Z) :
  Forall u64 bin1 -> Forall u64 bin2 ->
  0 <= hammingDistance hex1 hex2 bin1 bin2 <= 256.
Proof.
  intros H1 H2. unfold hammingDistance.
  rewrite distance_loop_bits
    by (intros k _; split; apply nth_u64, assign_u64;
        assumption || apply sscanf_lx_u64).
  cbn [seq fold_right].
  repeat match goal with
         | |- context [bits_set 64 ?v] =>
             let H := fresh in
             pose proof (bits_set_bounds 64 v) as H;
             generalize dependent (bits_set 64 v); intros
         end.
  lia.
Qed.

Lemma string_length_list (hex : string) :
  List.length (list_ascii_of_string hex) = String.length hex.
Proof.
  rewrite <- (string_of_list_ascii_of_string hex) at 2.
  symmetry. apply string_length_of_list.
Qed.

(** The array after scanning a well-formed digest: its four elements are
    the values of the four groups, whatever it held before. *)
Lemma assign_well_formed (hex : string) (bin : list Z) (k : nat) :
  well_formed_digest hex = true -> (k < 4)%nat ->
  nth k (assign bin (sscanf_lx 4 (list_ascii_of_string hex))) 0 =
    hex_value (group (list_ascii_of_string hex) k).
Proof.
  unfold well_formed_digest. intros Hwf Hk.
  apply andb_true_iff in Hwf as [Hlen Hx]. apply Nat.eqb_eq in Hlen.
  rewrite sscanf_lx_groups by (rewrite ?string_length_list; assumption).
  unfold assign. rewrite app_nth1 by (rewrite length_map, length_seq; lia).
  set (f := fun j => hex_value (group (list_ascii_of_string hex) j)).
  change 0 with (hex_value (group [] 0)) at 1.
  change (hex_value (group (list_ascii_of_string hex) k)) with (f k).
  destruct k as [|[|[|[|k]]]]; try reflexivity. lia.
Qed.

(** C1, as the code has it: on two well-formed digests (64 hexadecimal
    digits each) the function returns the number of bit positions in which
    the four 16-digit groups differ, a number between 0 and 256, whatever the
    two local arrays held on entry.  The function has no error path. *)
Theorem hammingDistance_well_formed (hex1 hex2 : string) (bin1 bin2 : list Z) :
  well_formed_digest hex1 = true ->
  well_formed_digest hex2 = true ->
  hammingDistance hex1 hex2 bin1 bin2 = differing_bits hex1 hex2
  /\ 0 <= hammingDistance hex1 hex2 bin1 bin2 <= 256.
Proof.
  intros H1 H2.
  assert (Heq : hammingDistance hex1 hex2 bin1 bin2 = differing_bits hex1 hex2).
  { unfold hammingDistance, differing_bits.
    rewrite distance_loop_bits.
    - cbn [seq fold_right]. rewrite !assign_well_formed by (assumption || lia).
      lia.
    - intros k Hk. rewrite !assign_well_formed by (assumption || lia).
      split; apply group_value_u64. }
  split; [exact Heq|]. rewrite Heq. unfold differing_bits.
  cbn [seq fold_right].
  repeat match goal with
         | |- context [bits_set 64 ?v] =>
             let H := fresh in
             pose proof (bits_set_bounds 64 v) as H;
             generalize dependent (bits_set 64 v); intros
         end.
  lia.
Qed.

(** C1, as the specification states it, fails: a 65-character string (the
    64 zeros followed by [f]) is not a well-formed digest, so is a string
    that starts with a space, and so is one that starts with [0x]; on each
    the function returns the count 0 against the digest of 64 zeros, like
    on the digest itself. *)
Lemma hammingDistance_accepts_malformed :
  let too_long := (zeros64 ++ "f")%string in
  let spaced := (" " ++ substring 0 63 zeros64)%string in
  let prefixed := ("0x" ++ substring 0 62 zeros64)%string in
  well_formed_digest zeros64 = true
  /\ well_formed_digest too_long = false
  /\ hammingDistance too_long zeros64 [1; 2; 3; 4] [5; 6; 7; 8] = 0
  /\ well_formed_digest spaced = false
  /\ hammingDistance spaced zeros64 [1; 2; 3; 4] [5; 6; 7; 8] = 0
  /\ well_formed_digest prefixed = false
  /\ hammingDistance prefixed zeros64 [1; 2; 3; 4] [5; 6; 7; 8] = 0.
Proof. vm_compute. repeat split. Qed.

(** ** The theorems at concrete inputs *)

Lemma hammingDistance_well_formed_witness :
  let d1 := "a5031d605094d17e3c084fb444398c54dd2b4d13d995c2833dcd300b34e96081"%string in
  let d2 := "256fe186d7ccc5cfd10b48d0409ea04d037a535fe15e7f97344e3f84637c06b8"%string in
  well_formed_digest d1 = true /\ well_formed_digest d2 = true
  /\ hammingDistance d1 d2 [1; 2; 3; 4] [5; 6; 7; 8] = differing_bits d1 d2
  /\ 0 <= hammingDistance d1 d2 [1; 2; 3; 4] [5; 6; 7; 8] <= 256.
Proof.
  intros d1 d2. split; [reflexivity|split; [reflexivity|]].
  apply (hammingDistance_well_formed d1 d2); reflexivity.
Defined.

Lemma hash_block_split_witness :
  let message := list_byte_of_string "hello, world 1, hello, world 2, !" in
  let L := Z.of_nat (List.length message) in
  L + 31 < two64
  /\ numBlocks L = Z.max 1 (ceil_div L 32)
  /\ (forall i, (i < Z.to_nat (numBlocks L))%nat ->
        paddedBlock message L (Z.of_nat i) = spec_block message i)
  /\ hash_words message L initial_mixer =
       run_blocks
         (map (spec_block message) (seq 0 (Z.to_nat (numBlocks L))))
         (0, 0, 0, 0) (Mixer seed0 seed1)
  /\ (numBlocks 0 = 1 /\ numBlocks 31 = 1 /\ numBlocks 32 = 1
      /\ numBlocks 33 = 2).
Proof.
  intros message L. split; [reflexivity|].
  apply (hash_block_split message initial_mixer). reflexivity.
Defined.

Lemma mix_block_eight_calls_witness :
  let block := repeat x00 32 in
  let sub := sub_block block in
  List.length block = 32%nat
  /\ exists f0 f1 f2 f3 r3 r2 r1 r0 st',
      hash_trace [sub 0; sub 1; sub 2; sub 3; sub 3; sub 2; sub 1; sub 0]%nat
                 (Mixer seed0 seed1) =
        ([f0; f1; f2; f3; r3; r2; r1; r0], st')
      /\ mix_block block (0, 0, 0, 0) (Mixer seed0 seed1) =
           ((Z.lxor 0 (Z.lxor f0 r3), Z.lxor 0 (Z.lxor f1 r2),
             Z.lxor 0 (Z.lxor f2 r1), Z.lxor 0 (Z.lxor f3 r0)), st').
Proof.
  intros block sub. split; [reflexivity|].
  apply (mix_block_eight_calls block 0 0 0 0 (Mixer seed0 seed1)).
  reflexivity.
Defined.

Lemma Xorshift128X_step_injective_witness :
  let st := Mixer seed0 seed1 in
  let st' := Mixer 0x5555555555555555 0xaaaaaaaaaaaaaaaa in
  mixer_ok st /\ mixer_ok st'
  /\ snd (Xorshift128X 97 st) = snd (Xorshift128X 97 st')
  /\ st = st'.
Proof.
  intros st st'.
  assert (Hok : mixer_ok st) by (repeat split; discriminate).
  split; [exact Hok|split; [exact Hok|split; [reflexivity|]]].
  apply (Xorshift128X_step_injective 97 st st'); [exact Hok|exact Hok|].
  reflexivity.
Defined.

(** * Further properties of the code *)

(** ** The distance is a metric on well-formed digests *)

Lemma hammingDistance_differing_bits (hex1 hex2 : string)
    (bin1 bin2 : list Z) :
  well_formed_digest hex1 = true ->
  well_formed_digest hex2 = true ->
  hammingDistance hex1 hex2 bin1 bin2 = differing_bits hex1 hex2.
Proof.
  intros H1 H2. unfold hammingDistance, differing_bits.
  rewrite distance_loop_bits.
  - cbn [seq fold_right]. rewrite !assign_well_formed by (assumption || lia).
    lia.
  - intros k Hk. rewrite !assign_well_formed by (assumption || lia).
    split; apply group_value_u64.
Qed.

Lemma distance_loop_comm (bin1 bin2 : list Z) (i todo : nat) (distance : Z) :
  distance_loop bin1 bin2 i todo distance =
    distance_loop bin2 bin1 i todo distance.
Proof.
  revert i distance. induction todo as [|todo IH]; intros i distance.
  - reflexivity.
  - cbn [distance_loop]. rewrite (Z.lxor_comm (nth i bin1 0)). apply IH.
Qed.

(** X2: Exchanging the two arguments (and with them the two local arrays)
    does not change the result, on any input. *)
Theorem hammingDistance_symmetric (hex1 hex2 : string) (bin1 bin2 : list Z) :
  hammingDistance hex1 hex2 bin1 bin2 = hammingDistance hex2 hex1 bin2 bin1.
Proof. unfold hammingDistance. apply distance_loop_comm. Qed.

Lemma bits_set_lxor_same (n : nat) (v : Z) : bits_set n (Z.lxor v v) = 0.
Proof. rewrite Z.lxor_nilpotent. apply bits_set_zero. Qed.

(** X3: A well-formed digest is at distance 0 from itself, whatever the two
    local arrays held on entry. *)
Theorem hammingDistance_self (hex : string) (bin1 bin2 : list Z) :
  well_formed_digest hex = true ->
  hammingDistance hex hex bin1 bin2 = 0.
Proof.
  intros H. rewrite hammingDistance_differing_bits by exact H.
  unfold differing_bits. cbn [seq fold_right].
  now rewrite !bits_set_lxor_same.
Qed.

Lemma bits_set_triangle (n : nat) (x y z : Z) :
  bits_set n (Z.lxor x z) <= bits_set n (Z.lxor x y) + bits_set n (Z.lxor y z).
Proof.
  induction n as [|n IH]; cbn [bits_set]; [lia|].
  rewrite !Z.lxor_spec.
  destruct (Z.testbit x (Z.of_nat n)), (Z.testbit y (Z.of_nat n)),
    (Z.testbit z (Z.of_nat n)); cbn [xorb Z.b2z]; lia.
Qed.

(** X4: The triangle inequality: going through a third digest never shortens
    the distance. *)
Theorem hammingDistance_triangle (hex1 hex2 hex3 : string)
    (bin1 bin2 bin3 bin4 bin5 bin6 : list Z) :
  well_formed_digest hex1 = true ->
  well_formed_digest hex2 = true ->
  well_formed_digest hex3 = true ->
  hammingDistance hex1 hex3 bin1 bin2
  <= hammingDistance hex1 hex2 bin3 bin4 + hammingDistance hex2 hex3 bin5 bin6.
Proof.
  intros H1 H2 H3. rewrite !hammingDistance_differing_bits by assumption.
  unfold differing_bits. cbn [seq fold_right].
  pose proof (fun k =>
    bits_set_triangle 64
      (hex_value (group (list_ascii_of_string hex1) k))
      (hex_value (group (list_ascii_of_string hex2) k))
      (hex_value (group (list_ascii_of_string hex3) k))) as T.
  pose proof (T 0%nat). pose proof (T 1%nat). pose proof (T 2%nat).
  pose proof (T 3%nat). lia.
Qed.

Lemma bits_set_none (n : nat) (v : Z) :
  bits_set n v = 0 ->
  forall i, 0 <= i < Z.of_nat n -> Z.testbit v i = false.
Proof.
  induction n as [|n IH]; intros H i Hi; [lia|].
  cbn [bits_set] in H. pose proof (bits_set_bounds n v) as Hb.
  destruct (Z.testbit v (Z.of_nat n)) eqn:Hn; cbn [Z.b2z] in H; [lia|].
  destruct (Z.eq_dec i (Z.of_nat n)) as [->|Hne]; [exact Hn|].
  apply IH; lia.
Qed.

Lemma bits_set_zero_iff (v : Z) : u64 v -> (bits_set 64 v = 0 <-> v = 0).
Proof.
  intros Hv. split.
  - intros H. apply Z.bits_inj'. intros i Hi. rewrite Z.testbit_0_l.
    destruct (Z_lt_le_dec i 64).
    + apply (bits_set_none 64 v H). lia.
    + now apply u64_high_bit.
  - intros ->. apply bits_set_zero.
Qed.

(** X5: Distance 0 between two well-formed digests means that their four
    groups denote the same four 64-bit words. *)
Theorem hammingDistance_zero_iff (hex1 hex2 : string) (bin1 bin2 : list Z) :
  well_formed_digest hex1 = true ->
  well_formed_digest hex2 = true ->
  (hammingDistance hex1 hex2 bin1 bin2 = 0 <->
   forall k, (k < 4)%nat ->
     hex_value (group (list_ascii_of_string hex1) k) =
     hex_value (group (list_ascii_of_string hex2) k)).
Proof.
  intros H1 H2. rewrite hammingDistance_differing_bits by assumption.
  unfold differing_bits. cbn [seq fold_right].
  set (v := fun k => Z.lxor (hex_value (group (list_ascii_of_string hex1) k))
                            (hex_value (group (list_ascii_of_string hex2) k))).
  assert (Hu : forall k, u64 (v k))
    by (intros k; apply lxor_u64; apply group_value_u64).
  change (bits_set 64 (v 0%nat) + (bits_set 64 (v 1%nat)
          + (bits_set 64 (v 2%nat) + (bits_set 64 (v 3%nat) + 0))) = 0
          <-> forall k, (k < 4)%nat ->
                hex_value (group (list_ascii_of_string hex1) k) =
                hex_value (group (list_ascii_of_string hex2) k)).
  pose proof (bits_set_bounds 64 (v 0%nat)).
  pose proof (bits_set_bounds 64 (v 1%nat)).
  pose proof (bits_set_bounds 64 (v 2%nat)).
  pose proof (bits_set_bounds 64 (v 3%nat)).
  split.
  - intros Hsum k Hk. apply Z.lxor_eq. fold (v k).
    apply bits_set_zero_iff; [apply Hu|].
    destruct k as [|[|[|[|k]]]]; lia.
  - intros Heq.
    assert (Hz : forall k, (k < 4)%nat -> bits_set 64 (v k) = 0).
    { intros k Hk. unfold v. rewrite (Heq k Hk). apply bits_set_lxor_same. }
    rewrite !Hz by lia. reflexivity.
Qed.

(** ** Printing and scanning are inverse *)

Lemma digit_value_hex_char (d : Z) :
  0 <= d < 16 -> digit_value (hex_char d) = Some d.
Proof.
  intros Hd. rewrite <- (Z2Nat.id d) by lia.
  assert (Hn : (Z.to_nat d < 16)%nat) by lia.
  generalize dependent (Z.to_nat d). intros n Hn.
  do 16 (destruct n as [|n]; [reflexivity|]). lia.
Qed.

Lemma hex_value_snoc (l : list ascii) (c : ascii) :
  hex_value (l ++ [c]) = 16 * hex_value l + digit_or_0 c.
Proof. unfold hex_value. now rewrite fold_left_app. Qed.

Lemma hex_value_nibbles (n : nat) (v : Z) :
  hex_value (nibbles n v) = v mod 16 ^ Z.of_nat n.
Proof.
  revert v. induction n as [|n IH]; intros v.
  - cbn. now rewrite Z.mod_1_r.
  - cbn [nibbles]. rewrite hex_value_snoc, IH.
    assert (Hm : 0 <= v mod 16 < 16) by (apply Z.mod_pos_bound; lia).
    unfold digit_or_0. rewrite digit_value_hex_char by exact Hm.
    rewrite Nat2Z.inj_succ, Z.pow_succ_r by lia.
    rewrite Z.rem_mul_r by (try apply Z.pow_pos_nonneg; lia). lia.
Qed.

Lemma nibbles_xdigit (n : nat) (v : Z) : forallb isxdigit (nibbles n v) = true.
Proof.
  revert v. induction n as [|n IH]; intros v; cbn [nibbles].
  - reflexivity.
  - rewrite forallb_app, IH. cbn [forallb andb]. rewrite andb_true_r.
    unfold isxdigit.
    now rewrite digit_value_hex_char by (apply Z.mod_pos_bound; lia).
Qed.

Lemma scan_lx_nibbles (v : Z) (rest : list ascii) :
  u64 v -> scan_lx 16 (nibbles 16 v ++ rest) = Some (v, rest).
Proof.
  intros Hv.
  assert (Hlen : List.length (nibbles 16 v) = 16%nat) by apply nibbles_length.
  assert (Hfirst : firstn 16 (nibbles 16 v ++ rest) = nibbles 16 v)
    by (rewrite firstn_app, Hlen, Nat.sub_diag, firstn_all2 by lia;
        cbn [firstn]; apply app_nil_r).
  rewrite scan_lx_group.
  - unfold group. change (16 * 0)%nat with 0%nat.
    change (skipn 0 (nibbles 16 v ++ rest)) with (nibbles 16 v ++ rest).
    rewrite Hfirst, hex_value_nibbles.
    rewrite skipn_app, Hlen, Nat.sub_diag, skipn_all2 by lia.
    cbn [skipn app]. f_equal. f_equal. apply Z.mod_small. exact Hv.
  - rewrite length_app. lia.
  - rewrite Hfirst. apply nibbles_xdigit.
Qed.

(** X8: What [%016lx] prints, [%16lx] reads back: the value is recovered and
    exactly the sixteen printed characters are consumed, whatever
    follows. *)
Theorem scan_lx_fmt_016lx (v : Z) (rest : list ascii) :
  u64 v -> scan_lx 16 (fmt_016lx v ++ rest) = Some (v, rest).
Proof.
  intros Hv. rewrite fmt_016lx_nibbles by exact Hv.
  now apply scan_lx_nibbles.
Qed.

(** ** [hammingDistance] on the strings that [hash] writes *)

Lemma hash_output_nibbles (message : list byte) (L : Z) (st : mixer)
    (h0 h1 h2 h3 : Z) :
  fst (hash_words message L st) = (h0, h1, h2, h3) ->
  words_ok (h0, h1, h2, h3)
  /\ fst (hash message L st) =
       string_of_list_ascii
         (nibbles 16 h3 ++ nibbles 16 h2 ++ nibbles 16 h1 ++ nibbles 16 h0).
Proof.
  intros Hw. pose proof (hash_words_ok message L st) as [Hok _].
  rewrite Hw in Hok. split; [exact Hok|].
  unfold hash, bind. destruct (hash_words message L st) as [w st1].
  cbn [fst] in Hw. subst w. destruct Hok as (H0 & H1 & H2 & H3).
  unfold ret, snprintf_4lx. cbn [fst].
  rewrite !fmt_016lx_nibbles by assumption.
  now rewrite firstn_all2
    by (rewrite !length_app, !nibbles_length; cbn; lia).
Qed.

Lemma sscanf_lx_nibbles (h0 h1 h2 h3 : Z) :
  words_ok (h0, h1, h2, h3) ->
  sscanf_lx 4
    (nibbles 16 h3 ++ nibbles 16 h2 ++ nibbles 16 h1 ++ nibbles 16 h0)
  = [h3; h2; h1; h0].
Proof.
  intros (H0 & H1 & H2 & H3). cbn [sscanf_lx].
  rewrite <- (app_nil_r (nibbles 16 h0)).
  now rewrite !scan_lx_nibbles by assumption.
Qed.

Lemma nibbles_well_formed (h0 h1 h2 h3 : Z) :
  well_formed_digest
    (string_of_list_ascii
       (nibbles 16 h3 ++ nibbles 16 h2 ++ nibbles 16 h1 ++ nibbles 16 h0))
  = true.
Proof.
  unfold well_formed_digest.
  rewrite string_length_of_list, list_ascii_of_string_of_list_ascii.
  rewrite !length_app, !nibbles_length, !forallb_app, !nibbles_xdigit.
  reflexivity.
Qed.

(** X9: The string that [hash] writes is a well-formed digest, for every
    message: 64 characters, all hexadecimal digits. *)
Theorem hash_output_well_formed (message : list byte) (L : Z) (st : mixer) :
  well_formed_digest (fst (hash message L st)) = true.
Proof.
  destruct (fst (hash_words message L st)) as [[[h0 h1] h2] h3] eqn:Hw.
  destruct (hash_output_nibbles message L st h0 h1 h2 h3 Hw) as [_ ->].
  apply nibbles_well_formed.
Qed.

Lemma hammingDistance_nibbles (a0 a1 a2 a3 b0 b1 b2 b3 : Z)
    (bin1 bin2 : list Z) :
  words_ok (a0, a1, a2, a3) -> words_ok (b0, b1, b2, b3) ->
  hammingDistance
    (string_of_list_ascii
       (nibbles 16 a3 ++ nibbles 16 a2 ++ nibbles 16 a1 ++ nibbles 16 a0))
    (string_of_list_ascii
       (nibbles 16 b3 ++ nibbles 16 b2 ++ nibbles 16 b1 ++ nibbles 16 b0))
    bin1 bin2
  = bits_set 64 (Z.lxor a3 b3) + bits_set 64 (Z.lxor a2 b2)
    + bits_set 64 (Z.lxor a1 b1) + bits_set 64 (Z.lxor a0 b0).
Proof.
  intros Ha Hb. unfold hammingDistance.
  rewrite !list_ascii_of_string_of_list_ascii, !sscanf_lx_nibbles
    by assumption.
  destruct Ha as (A0 & A1 & A2 & A3), Hb as (B0 & B1 & B2 & B3).
  unfold assign. cbn [List.length app distance_loop nth].
  rewrite !count_loop_64 by (cbn [snd]; now apply lxor_u64).
  cbn [snd]. lia.
Qed.

(** X10: [main]'s use of the two functions: on the strings written by [hash]
    for two messages, [hammingDistance] returns the number of bit positions
    in which the two sets of accumulators differ, whatever the local arrays
    held. *)
Theorem hammingDistance_of_digests (m1 m2 : list byte) (L1 L2 : Z)
    (st1 st2 : mixer) (bin1 bin2 : list Z) :
  let '(a0, a1, a2, a3) := fst (hash_words m1 L1 st1) in
  let '(b0, b1, b2, b3) := fst (hash_words m2 L2 st2) in
  hammingDistance (fst (hash m1 L1 st1)) (fst (hash m2 L2 st2)) bin1 bin2
  = bits_set 64 (Z.lxor a3 b3) + bits_set 64 (Z.lxor a2 b2)
    + bits_set 64 (Z.lxor a1 b1) + bits_set 64 (Z.lxor a0 b0).
Proof.
  destruct (fst (hash_words m1 L1 st1)) as [[[a0 a1] a2] a3] eqn:Ha.
  destruct (fst (hash_words m2 L2 st2)) as [[[b0 b1] b2] b3] eqn:Hb.
  destruct (hash_output_nibbles _ _ _ _ _ _ _ Ha) as [Hoka ->].
  destruct (hash_output_nibbles _ _ _ _ _ _ _ Hb) as [Hokb ->].
  now apply hammingDistance_nibbles.
Qed.

(** X11: Two strings written by [hash] are at distance 0 exactly when they are
    the same string. *)
Theorem hammingDistance_digests_zero_iff (m1 m2 : list byte) (L1 L2 : Z)
    (st1 st2 : mixer) (bin1 bin2 : list Z) :
  hammingDistance (fst (hash m1 L1 st1)) (fst (hash m2 L2 st2)) bin1 bin2 = 0
  <-> fst (hash m1 L1 st1) = fst (hash m2 L2 st2).
Proof.
  destruct (fst (hash_words m1 L1 st1)) as [[[a0 a1] a2] a3] eqn:Ha.
  destruct (fst (hash_words m2 L2 st2)) as [[[b0 b1] b2] b3] eqn:Hb.
  destruct (hash_output_nibbles _ _ _ _ _ _ _ Ha) as [Hoka ->].
  destruct (hash_output_nibbles _ _ _ _ _ _ _ Hb) as [Hokb ->].
  rewrite hammingDistance_nibbles by assumption.
  destruct Hoka as (A0 & A1 & A2 & A3), Hokb as (B0 & B1 & B2 & B3).
  pose proof (bits_set_bounds 64 (Z.lxor a0 b0)).
  pose proof (bits_set_bounds 64 (Z.lxor a1 b1)).
  pose proof (bits_set_bounds 64 (Z.lxor a2 b2)).
  pose proof (bits_set_bounds 64 (Z.lxor a3 b3)).
  split.
  - intros Hsum.
    assert (E0 : a0 = b0)
      by (apply Z.lxor_eq, bits_set_zero_iff; [now apply lxor_u64|lia]).
    assert (E1 : a1 = b1)
      by (apply Z.lxor_eq, bits_set_zero_iff; [now apply lxor_u64|lia]).
    assert (E2 : a2 = b2)
      by (apply Z.lxor_eq, bits_set_zero_iff; [now apply lxor_u64|lia]).
    assert (E3 : a3 = b3)
      by (apply Z.lxor_eq, bits_set_zero_iff; [now apply lxor_u64|lia]).
    now subst.
  - intros Heq.
    apply (f_equal list_ascii_of_string) in Heq.
    rewrite !list_ascii_of_string_of_list_ascii in Heq.
    apply (f_equal (fun l => map (fun k => hex_value (group l k)) (seq 0 4)))
      in Heq.
    rewrite <- !sscanf_lx_groups in Heq;
      try (rewrite !length_app, !nibbles_length; reflexivity);
      try (rewrite !forallb_app, !nibbles_xdigit; reflexivity).
    rewrite !sscanf_lx_nibbles in Heq by (unfold words_ok; auto).
    injection Heq as -> -> -> ->. now rewrite !bits_set_lxor_same.
Qed.

(** ** Zero padding *)

Lemma spec_block_length (message : list byte) (i : nat) :
  List.length (spec_block message i) = 32%nat.
Proof.
  unfold spec_block. rewrite length_app, repeat_length, length_firstn. lia.
Qed.

Lemma spec_block_nth (message : list byte) (i j : nat) :
  (j < 32)%nat ->
  nth j (spec_block message i) x00 = nth (32 * i + j) message x00.
Proof.
  intros Hj. unfold spec_block.
  set (slice := firstn 32 (skipn (32 * i) message)).
  assert (Hlen : List.length slice
                 = Nat.min 32 (List.length message - 32 * i))
    by (unfold slice; now rewrite length_firstn, length_skipn).
  destruct (Nat.lt_ge_cases j (List.length slice)) as [Hin|Hout].
  - rewrite app_nth1 by exact Hin. unfold slice.
    rewrite nth_firstn. destruct (Nat.ltb_spec j 32); [|lia].
    apply nth_skipn.
  - rewrite app_nth2 by exact Hout. rewrite nth_repeat.
    symmetry. apply nth_overflow. lia.
Qed.

Lemma nth_app_zeros (message : list byte) (k n : nat) :
  nth n (message ++ repeat x00 k) x00 = nth n message x00.
Proof.
  destruct (Nat.lt_ge_cases n (List.length message)) as [Hin|Hout].
  - now apply app_nth1.
  - rewrite app_nth2 by exact Hout. rewrite nth_repeat.
    symmetry. now apply nth_overflow.
Qed.

Lemma spec_block_app_zeros (message : list byte) (k i : nat) :
  spec_block (message ++ repeat x00 k) i = spec_block message i.
Proof.
  apply (nth_ext _ _ x00 x00).
  - now rewrite !spec_block_length.
  - intros j Hj. rewrite spec_block_length in Hj.
    now rewrite !spec_block_nth, nth_app_zeros by exact Hj.
Qed.

Lemma hash_words_run_blocks (message : list byte) (st : mixer) :
  let L := Z.of_nat (List.length message) in
  L + 31 < two64 ->
  hash_words message L st =
    run_blocks (map (spec_block message) (seq 0 (Z.to_nat (numBlocks L))))
               (0, 0, 0, 0) (Mixer seed0 seed1).
Proof.
  intros L HL. unfold hash_words, bind, reseed.
  rewrite (block_loop_run_blocks message L 0). f_equal.
  apply map_ext_in. intros i Hi. apply in_seq in Hi.
  apply paddedBlock_spec_block; [exact HL|]. destruct Hi as [_ Hi]. exact Hi.
Qed.

(** X12: The length of the message is not part of what is hashed: zero bytes
    appended to a message, as long as they fit in its last block, change
    neither the string returned nor the state left behind. *)
Theorem digest_trailing_zeros (message : list byte) (k : nat) (st : mixer) :
  let L := Z.of_nat (List.length message) in
  L + 31 < two64 ->
  L + Z.of_nat k <= 32 * numBlocks L ->
  digest (message ++ repeat x00 k) st = digest message st.
Proof.
  intros L HL Hk. unfold digest, hash, bind.
  assert (Hn : numBlocks L = Z.max 1 ((L + 31) / 32))
    by (apply numBlocks_in_range; unfold L; lia).
  assert (HL' : Z.of_nat (List.length (message ++ repeat x00 k))
                = L + Z.of_nat k)
    by (rewrite length_app, repeat_length; unfold L; lia).
  assert (Hn' : numBlocks (L + Z.of_nat k) = numBlocks L).
  { rewrite Hn in Hk |- *. rewrite numBlocks_in_range by size_lia.
    size_lia. }
  rewrite !hash_words_run_blocks by (rewrite ?HL'; fold L; size_lia).
  rewrite HL', Hn'. fold L.
  rewrite (map_ext _ (spec_block message)
             (fun i => spec_block_app_zeros message k i)).
  reflexivity.
Qed.

(** ** The blocks cover the message *)

Lemma spec_block_succ (message : list byte) (i : nat) :
  spec_block message (S i) = spec_block (skipn 32 message) i.
Proof.
  unfold spec_block. rewrite skipn_skipn.
  now replace (32 * i + 32)%nat with (32 * S i)%nat by lia.
Qed.

Lemma spec_blocks_concat (n : nat) (message : list byte) :
  (List.length message <= 32 * n)%nat ->
  List.concat (map (spec_block message) (seq 0 n)) =
    message ++ repeat x00 (32 * n - List.length message).
Proof.
  revert message. induction n as [|n IH]; intros message Hlen.
  - destruct message; [reflexivity|cbn in Hlen; lia].
  - cbn [seq map List.concat]. rewrite <- seq_shift, map_map.
    rewrite (map_ext _ (spec_block (skipn 32 message))
               (spec_block_succ message)).
    rewrite IH by (rewrite length_skipn; lia).
    unfold spec_block at 1. change (32 * 0)%nat with 0%nat.
    change (skipn 0 message) with message.
    rewrite length_firstn, length_skipn.
    destruct (Nat.le_gt_cases 32 (List.length message)) as [Hge|Hlt].
    + rewrite Nat.min_l, Nat.sub_diag by exact Hge. cbn [repeat].
      rewrite app_nil_r, app_assoc, firstn_skipn. f_equal. f_equal. lia.
    + rewrite Nat.min_r by lia.
      rewrite firstn_all2, skipn_all2 by lia. cbn [app].
      rewrite <- app_assoc, <- repeat_app. f_equal. f_equal. lia.
Qed.

(** X13: The blocks that the loop builds, put end to end, are the message
    followed by zero bytes up to a multiple of 32: no byte of the message is
    dropped, repeated or moved. *)
Theorem padded_blocks_cover_message (message : list byte) :
  let L := Z.of_nat (List.length message) in
  let n := Z.to_nat (numBlocks L) in
  L + 31 < two64 ->
  List.concat (map (fun i => paddedBlock message L (Z.of_nat i)) (seq 0 n)) =
    message ++ repeat x00 (32 * n - List.length message).
Proof.
  intros L n HL.
  rewrite (map_ext_in _ (spec_block message)).
  - apply spec_blocks_concat. unfold n.
    rewrite numBlocks_in_range by (unfold L; lia). unfold L. size_lia.
  - intros i Hi. apply in_seq in Hi.
    apply paddedBlock_spec_block; [exact HL|]. destruct Hi as [_ Hi]. exact Hi.
Qed.

(** ** The generator calls of a whole digest *)

Lemma sub_block_length (block : list byte) (k : nat) :
  (8 * k + 8 <= List.length block)%nat ->
  List.length (sub_block block k) = 8%nat.
Proof.
  intros Hk. unfold sub_block. rewrite length_firstn, length_skipn. lia.
Qed.

Lemma hashBlock_sub_state (block : list byte) (k : nat) (st : mixer) :
  (8 * k + 8 <= List.length block)%nat ->
  snd (hashBlock (skipn (8 * k) block) 8 st) =
    snd (mix_trace
           (map widen (sub_block block k ++ rev (sub_block block k))) st).
Proof.
  intros Hk. now rewrite hashBlock_sub_block, hashBlock_whole by exact Hk.
Qed.

Lemma mix_trace_concat_state (ls : list (list byte)) (st : mixer) :
  snd (mix_trace (map widen (List.concat ls)) st) =
    fold_left (fun s l => snd (mix_trace (map widen l) s)) ls st.
Proof.
  revert st. induction ls as [|l ls IH]; intros st.
  - reflexivity.
  - cbn [List.concat fold_left]. rewrite map_app, mix_trace_app.
    cbn [snd]. apply IH.
Qed.

Lemma mix_block_state (block : list byte) (finalHash : words) (st : mixer) :
  List.length block = 32%nat ->
  snd (mix_block block finalHash st) =
    snd (mix_trace (map widen (block_inputs block)) st).
Proof.
  intros Hlen. destruct finalHash as [[[f0 f1] f2] f3].
  unfold block_inputs. rewrite mix_trace_concat_state.
  cbn [map fold_left].
  rewrite <- !hashBlock_sub_state by lia.
  change (8 * 0)%nat with 0%nat. change (skipn 0 block) with block.
  change (8 * 1)%nat with 8%nat. change (8 * 2)%nat with (2 * 8)%nat.
  change (8 * 3)%nat with (3 * 8)%nat.
  unfold mix_block, bind. change (Z.to_nat subBlockSize) with 8%nat.
  destruct (hashBlock block 8 st) as [o0 t0]. cbn [snd].
  destruct (hashBlock (skipn 8 block) 8 t0) as [o1 t1]. cbn [snd].
  destruct (hashBlock (skipn (2 * 8) block) 8 t1) as [o2 t2]. cbn [snd].
  destruct (hashBlock (skipn (3 * 8) block) 8 t2) as [o3 t3]. cbn [snd].
  destruct (hashBlock (skipn (3 * 8) block) 8 t3) as [o4 t4]. cbn [snd].
  destruct (hashBlock (skipn (2 * 8) block) 8 t4) as [o5 t5]. cbn [snd].
  destruct (hashBlock (skipn 8 block) 8 t5) as [o6 t6]. cbn [snd].
  destruct (hashBlock block 8 t6) as [o7 t7]. reflexivity.
Qed.

Lemma block_inputs_length (block : list byte) :
  List.length block = 32%nat -> List.length (block_inputs block) = 128%nat.
Proof.
  intros Hlen. unfold block_inputs. cbn [map List.concat].
  rewrite !length_app, !length_rev, !sub_block_length by lia. reflexivity.
Qed.

Lemma run_blocks_state (blocks : list (list byte)) (finalHash : words)
    (st : mixer) :
  Forall (fun b => List.length b = 32%nat) blocks ->
  snd (run_blocks blocks finalHash st) =
    snd (mix_trace (map widen (List.concat (map block_inputs blocks))) st).
Proof.
  intros Hall. revert finalHash st.
  induction Hall as [|b blocks Hb _ IH]; intros finalHash st.
  - reflexivity.
  - cbn [run_blocks map List.concat]. unfold bind.
    rewrite map_app, mix_trace_app. cbn [snd].
    rewrite <- (mix_block_state b finalHash st Hb).
    destruct (mix_block b finalHash st) as [fh st1]. apply IH.
Qed.

(** X14: The generator is called 128 times for each block, that is four times
    for every byte of the padded message, and the state that [hash] leaves
    behind is the seed advanced through exactly these calls. *)
Theorem digest_generator_calls (message : list byte) :
  let L := Z.of_nat (List.length message) in
  L + 31 < two64 ->
  final_mixer message =
    snd (mix_trace (map widen (digest_inputs message)) (Mixer seed0 seed1))
  /\ Z.of_nat (List.length (digest_inputs message)) = 128 * numBlocks L.
Proof.
  intros L HL. split.
  - change (final_mixer message)
      with (snd (hash_words message L initial_mixer)).
    rewrite hash_words_run_blocks by exact HL.
    rewrite run_blocks_state; [unfold digest_inputs; now rewrite map_map|].
    apply Forall_forall. intros b Hb. apply in_map_iff in Hb.
    destruct Hb as (i & <- & _). apply spec_block_length.
  - unfold digest_inputs. fold L.
    assert (Hn : 0 <= numBlocks L)
      by (rewrite numBlocks_in_range by (unfold L; lia); lia).
    rewrite <- (Z2Nat.id (numBlocks L)) at 2 by exact Hn.
    generalize (Z.to_nat (numBlocks L)) as n. intros n.
    generalize 0%nat as start.
    induction n as [|n IH]; intros start.
    + reflexivity.
    + cbn [seq map List.concat]. rewrite length_app, block_inputs_length
        by apply spec_block_length.
      rewrite Nat2Z.inj_add, IH. lia.
Qed.

(** ** [main] *)

Example main_output (bin1 bin2 : list Z) (st : mixer) :
  fst (main bin1 bin2 st) =
    (("256-bit Hash: a5031d605094d17e3c084fb444398c54dd2b4d13d995c2833dcd300b34e96081"
      ++ String "010"
      "256-bit Hash: 256fe186d7ccc5cfd10b48d0409ea04d037a535fe15e7f97344e3f84637c06b8"
      ++ String "010" "Hamming Distance: 118" ++ String "010" "")%string, 0).
Proof. vm_compute. reflexivity. Qed.

(** ** The state update is linear over xor *)

Lemma wrap64_lxor (a b : Z) :
  wrap64 (Z.lxor a b) = Z.lxor (wrap64 a) (wrap64 b).
Proof.
  apply Z.bits_inj'. intros i _.
  rewrite Z.lxor_spec, !wrap64_testbit, Z.lxor_spec.
  now destruct (i <? 64).
Qed.

Lemma lxor_swap_middle (a b c d : Z) :
  Z.lxor (Z.lxor a b) (Z.lxor c d) = Z.lxor (Z.lxor a c) (Z.lxor b d).
Proof.
  apply Z.bits_inj'. intros i _. rewrite !Z.lxor_spec.
  now destruct (Z.testbit a i), (Z.testbit b i), (Z.testbit c i),
    (Z.testbit d i).
Qed.

(** X16: The state after a call is a linear function of the state before and
    of the input, bit by bit: xoring two inputs and two states gives the xor
    of the two successor states.  No carry or other non-linear step enters
    the state; only the returned sum has one. *)
Theorem Xorshift128X_state_linear (x y : Z) (st st' : mixer) :
  snd (Xorshift128X (Z.lxor x y) (mixer_xor st st')) =
    mixer_xor (snd (Xorshift128X x st)) (snd (Xorshift128X y st')).
Proof.
  destruct st as [a0 a1], st' as [b0 b1].
  unfold Xorshift128X, mixer_xor. cbn [snd s0 s1]. f_equal.
  - rewrite Z.shiftl_lxor, wrap64_lxor. apply lxor_swap_middle.
  - rewrite Z.shiftl_lxor, wrap64_lxor.
    rewrite (lxor_swap_middle a0 b0).
    set (ta := Z.lxor a0 (wrap64 (Z.shiftl a0 23))).
    set (tb := Z.lxor b0 (wrap64 (Z.shiftl b0 23))).
    rewrite !Z.shiftr_lxor.
    apply Z.bits_inj'. intros i _. rewrite !Z.lxor_spec.
    now destruct (Z.testbit ta i), (Z.testbit tb i), (Z.testbit a1 i),
      (Z.testbit b1 i), (Z.testbit (Z.shiftr ta 18) i),
      (Z.testbit (Z.shiftr tb 18) i), (Z.testbit (Z.shiftr a1 5) i),
      (Z.testbit (Z.shiftr b1 5) i).
Qed.

(** ** No two states merge inside [hashBlock] *)

Lemma Xorshift128X_previous_state (x : Z) (st st' : mixer) :
  mixer_ok st -> mixer_ok st' ->
  snd (Xorshift128X x st) = snd (Xorshift128X x st') -> st = st'.
Proof.
  intros [H0 H1] [H0' H1'] H.
  destruct st as [a0 a1], st' as [b0 b1].
  pose proof (f_equal s0 H) as Hs0. pose proof (f_equal s1 H) as Hs1.
  clear H. unfold Xorshift128X in Hs0, Hs1.
  cbv beta iota zeta delta [snd s0 s1] in *.
  apply lxor_cancel_r in Hs0. subst b1.
  apply lxor_cancel_r in Hs1.
  set (ta := Z.lxor a0 (wrap64 (Z.shiftl a0 23))) in *.
  set (tb := Z.lxor b0 (wrap64 (Z.shiftl b0 23))) in *.
  assert (Ht : Z.lxor ta (Z.shiftr ta 18) = Z.lxor tb (Z.shiftr tb 18)).
  { apply Z.bits_inj'. intros i _.
    apply (f_equal (fun z => Z.testbit z i)) in Hs1.
    repeat rewrite Z.lxor_spec in Hs1. rewrite !Z.lxor_spec.
    destruct (Z.testbit ta i), (Z.testbit tb i), (Z.testbit a1 i),
      (Z.testbit (Z.shiftr ta 18) i), (Z.testbit (Z.shiftr tb 18) i);
      cbn in *; congruence. }
  apply xor_shiftr_injective in Ht; [|subst ta; auto with u64
                                      |subst tb; auto with u64].
  apply xor_shiftl_injective in Ht; [|assumption|assumption].
  now subst.
Qed.

Lemma mix_trace_ok (inputs : list Z) (st : mixer) :
  mixer_ok st -> mixer_ok (snd (mix_trace inputs st)).
Proof.
  revert st. induction inputs as [|x inputs IH]; intros st Hst.
  - exact Hst.
  - cbn [mix_trace]. pose proof (Xorshift128X_u64 x st Hst) as [_ Hst1].
    destruct (Xorshift128X x st) as [o st1]. specialize (IH st1 Hst1).
    now destruct (mix_trace inputs st1).
Qed.

Lemma mix_trace_previous_state (inputs : list Z) (st st' : mixer) :
  mixer_ok st -> mixer_ok st' ->
  snd (mix_trace inputs st) = snd (mix_trace inputs st') -> st = st'.
Proof.
  revert st st'. induction inputs as [|x inputs IH]; intros st st' Hst Hst' H.
  - exact H.
  - cbn [mix_trace] in H.
    pose proof (Xorshift128X_u64 x st Hst) as [_ Hst1].
    pose proof (Xorshift128X_u64 x st' Hst') as [_ Hst1'].
    apply (Xorshift128X_previous_state x); [assumption|assumption|].
    destruct (Xorshift128X x st) as [o st1].
    destruct (Xorshift128X x st') as [o' st1'].
    cbn [snd] in *.
    apply IH; [assumption|assumption|].
    now destruct (mix_trace inputs st1), (mix_trace inputs st1').
Qed.

(** X17: Run on the same bytes from two different states, [hashBlock] leaves
    two different states: the state it leaves determines the state it
    found. *)
Theorem hashBlock_state_injective (block : list byte) (n : nat)
    (st st' : mixer) :
  (n <= List.length block)%nat ->
  mixer_ok st -> mixer_ok st' ->
  snd (hashBlock block n st) = snd (hashBlock block n st') -> st = st'.
Proof.
  intros Hn Hst Hst' H.
  rewrite !hashBlock_trace in H by exact Hn. cbn [snd] in H.
  now apply mix_trace_previous_state in H.
Qed.

(** ** What [hashBlock] reads *)

(** X18: [hashBlock] looks at the first [length] bytes at the pointer and at
    nothing behind them. *)
Theorem hashBlock_reads_prefix (block block' : list byte) (n : nat)
    (st : mixer) :
  (n <= List.length block)%nat -> (n <= List.length block')%nat ->
  firstn n block = firstn n block' ->
  hashBlock block n st = hashBlock block' n st.
Proof.
  intros Hn Hn' Heq. rewrite !hashBlock_trace by assumption.
  cbn zeta. now rewrite Heq.
Qed.

(** ** The counting loop *)

(** X7: On a 64-bit value the [while] loop of [hammingDistance] leaves
    [xorVal = 0] after at most 64 rounds and has added the number of set
    bits to [distance]; rounds allowed beyond 64 are never used. *)
Theorem count_loop_popcount (fuel : nat) (xorVal distance : Z) :
  (64 <= fuel)%nat -> u64 xorVal ->
  count_loop fuel xorVal distance = (0, distance + bits_set 64 xorVal).
Proof.
  intros Hfuel Hx.
  rewrite (count_loop_fuel 64 fuel) by (exact Hx || exact Hfuel).
  now apply count_loop_64.
Qed.

(** ** Words stay words *)

(** From a state of two 64-bit words, [hashBlock] returns a 64-bit word and
    leaves a state of two 64-bit words: the xors and right shifts, which the
    C code does not truncate, never leave the range. *)
Lemma hashBlock_in_range (block : list byte) (n : nat) (st : mixer) :
  mixer_ok st ->
  u64 (fst (hashBlock block n st)) /\ mixer_ok (snd (hashBlock block n st)).
Proof. intros Hst. now apply in_range_hashBlock. Qed.

(** ** Characters after the fourth group *)

Lemma sscanf_lx_ignores_rest (n : nat) (s rest : list ascii) :
  List.length s = (16 * n)%nat ->
  forallb isxdigit s = true ->
  sscanf_lx n (s ++ rest) = sscanf_lx n s.
Proof.
  revert s. induction n as [|n IH]; intros s Hlen Hx.
  - reflexivity.
  - assert (Hhead : forallb isxdigit (firstn 16 s) = true
                    /\ forallb isxdigit (skipn 16 s) = true).
    { rewrite <- (firstn_skipn 16 s), forallb_app in Hx.
      now apply andb_true_iff in Hx. }
    destruct Hhead as [Hhead Htail].
    assert (Hfirst : firstn 16 (s ++ rest) = firstn 16 s).
    { rewrite firstn_app. replace (16 - List.length s)%nat with 0%nat by lia.
      cbn [firstn]. apply app_nil_r. }
    assert (Hskip : skipn 16 (s ++ rest) = skipn 16 s ++ rest).
    { rewrite skipn_app. now replace (16 - List.length s)%nat with 0%nat by lia. }
    cbn [sscanf_lx].
    rewrite (scan_lx_group (s ++ rest))
      by (rewrite ?length_app, ?Hfirst; assumption || lia).
    rewrite (scan_lx_group s) by (assumption || lia).
    unfold group. change (16 * 0)%nat with 0%nat.
    change (skipn 0 (s ++ rest)) with (s ++ rest).
    change (skipn 0 s) with s.
    rewrite Hfirst, Hskip. f_equal.
    apply IH; [rewrite length_skipn; lia|exact Htail].
Qed.

Lemma list_ascii_of_string_app (a b : string) :
  list_ascii_of_string (a ++ b) =
    list_ascii_of_string a ++ list_ascii_of_string b.
Proof. induction a as [|c a IH]; cbn; [reflexivity|now rewrite IH]. Qed.

(** X6: Only the first 64 characters of a string are looked at: whatever
    follows a well-formed digest is ignored without notice. *)
Theorem hammingDistance_ignores_suffix (hex1 hex2 tail1 tail2 : string)
    (bin1 bin2 : list Z) :
  well_formed_digest hex1 = true ->
  well_formed_digest hex2 = true ->
  hammingDistance (hex1 ++ tail1) (hex2 ++ tail2) bin1 bin2 =
    hammingDistance hex1 hex2 bin1 bin2.
Proof.
  unfold well_formed_digest. intros H1 H2.
  apply andb_true_iff in H1 as [L1 X1]. apply Nat.eqb_eq in L1.
  apply andb_true_iff in H2 as [L2 X2]. apply Nat.eqb_eq in L2.
  unfold hammingDistance. rewrite !list_ascii_of_string_app.
  now rewrite !sscanf_lx_ignores_rest
    by (rewrite ?string_length_list; assumption).
Qed.

(** ** A length within 31 of [SIZE_MAX] *)

(** X15: When [length + blockSize - 1] does not fit a [size_t], the sum wraps,
    the quotient is 0 and the floor of one block applies: [hash] then
    processes the first 32 bytes at the pointer and nothing else. *)
Theorem hash_length_wraps (message : list byte) (L : Z) (st : mixer) :
  two64 - 31 <= L < two64 ->
  (32 <= List.length message)%nat ->
  hash message L st = hash (firstn 32 message) 32 st.
Proof.
  intros HL Hlen.
  assert (Hn : numBlocks L = 1).
  { unfold numBlocks, wrap64. change blockSize with 32.
    rewrite Zminus_mod_idemp_l.
    replace (L + 32 - 1) with (L + 31 - 1 * two64 + 1 * two64) by lia.
    rewrite Z.mod_add by (unfold two64; lia).
    rewrite Z.mod_small by size_lia.
    destruct (Z.ltb_spec 0 ((L + 31 - 1 * two64) / 32)); [size_lia|reflexivity]. }
  assert (Hb : paddedBlock message L 0 = paddedBlock (firstn 32 message) 32 0).
  { unfold paddedBlock, memcpy, memset. change (wrap64 (0 * blockSize)) with 0.
    change (wrap64 (0 + blockSize)) with 32. change blockSize with 32.
    destruct (Z.ltb_spec L 32); [size_lia|]. cbn [Z.ltb Z.compare Pos.compare].
    change (32 <? 32) with false. cbv iota.
    change (Z.to_nat 0) with 0%nat. change (Z.to_nat 32) with 32%nat.
    cbn [skipn]. now rewrite firstn_firstn. }
  unfold hash, hash_words, bind, reseed. rewrite Hn.
  change (Z.to_nat (numBlocks 32)) with 1%nat. change (Z.to_nat 1) with 1%nat.
  cbn [block_loop]. unfold bind. now rewrite Hb.
Qed.

(** ** The further properties at concrete inputs *)

Lemma hammingDistance_range_witness :
  Forall u64 [1; 2; 3; 4] /\ Forall u64 [5; 6; 7; 8]
  /\ 0 <= hammingDistance "xyz" zeros64 [1; 2; 3; 4] [5; 6; 7; 8] <= 256.
Proof.
  assert (H1 : Forall u64 [1; 2; 3; 4])
    by (repeat constructor; discriminate).
  assert (H2 : Forall u64 [5; 6; 7; 8])
    by (repeat constructor; discriminate).
  split; [exact H1|split; [exact H2|]].
  apply (hammingDistance_range "xyz" zeros64); assumption.
Defined.

Lemma hammingDistance_self_witness :
  well_formed_digest empty_digest = true
  /\ hammingDistance empty_digest empty_digest [1; 2; 3; 4] [5; 6; 7; 8] = 0.
Proof.
  split; [reflexivity|].
  apply (hammingDistance_self empty_digest). reflexivity.
Defined.

Lemma hammingDistance_triangle_witness :
  let d1 := "a5031d605094d17e3c084fb444398c54dd2b4d13d995c2833dcd300b34e96081"%string in
  let d2 := "256fe186d7ccc5cfd10b48d0409ea04d037a535fe15e7f97344e3f84637c06b8"%string in
  well_formed_digest d1 = true /\ well_formed_digest empty_digest = true
  /\ well_formed_digest d2 = true
  /\ hammingDistance d1 d2 [] [] <=
      hammingDistance d1 empty_digest [] [] + hammingDistance empty_digest d2 [] [].
Proof.
  intros d1 d2. repeat (split; [reflexivity|]).
  apply (hammingDistance_triangle d1 empty_digest d2); reflexivity.
Defined.

Lemma hammingDistance_zero_iff_witness :
  let upper := "7D81BC06988293B549F0F7607044D93296FFEAFFAAF9DFEF82CA3F40841DAE6F"%string in
  well_formed_digest empty_digest = true /\ well_formed_digest upper = true
  /\ (hammingDistance empty_digest upper [] [] = 0 <->
      forall k, (k < 4)%nat ->
        hex_value (group (list_ascii_of_string empty_digest) k) =
        hex_value (group (list_ascii_of_string upper) k)).
Proof.
  intros upper. split; [reflexivity|split; [reflexivity|]].
  apply (hammingDistance_zero_iff empty_digest upper); reflexivity.
Defined.

Lemma scan_lx_fmt_016lx_witness :
  u64 0xfeed
  /\ scan_lx 16 (fmt_016lx 0xfeed ++ list_ascii_of_string "0123")
     = Some (0xfeed, list_ascii_of_string "0123").
Proof.
  assert (H : u64 0xfeed) by (split; [discriminate|reflexivity]).
  split; [exact H|]. apply (scan_lx_fmt_016lx 0xfeed). exact H.
Defined.

Lemma digest_trailing_zeros_witness :
  let message := list_byte_of_string "hello, world 1" in
  let L := Z.of_nat (List.length message) in
  L + 31 < two64 /\ L + Z.of_nat 18 <= 32 * numBlocks L
  /\ digest (message ++ repeat x00 18) initial_mixer =
     digest message initial_mixer.
Proof.
  intros message L. split; [reflexivity|split; [discriminate|]].
  apply (digest_trailing_zeros message 18 initial_mixer).
  - reflexivity.
  - discriminate.
Defined.

Lemma padded_blocks_cover_message_witness :
  let message := list_byte_of_string "hello, world 1, hello, world 2, !" in
  let L := Z.of_nat (List.length message) in
  let n := Z.to_nat (numBlocks L) in
  L + 31 < two64
  /\ List.concat (map (fun i => paddedBlock message L (Z.of_nat i)) (seq 0 n))
     = message ++ repeat x00 (32 * n - List.length message).
Proof.
  intros message L n. split; [reflexivity|].
  apply (padded_blocks_cover_message message). reflexivity.
Defined.

Lemma digest_generator_calls_witness :
  let message := list_byte_of_string "hello, world 1, hello, world 2, !" in
  let L := Z.of_nat (List.length message) in
  L + 31 < two64
  /\ final_mixer message =
       snd (mix_trace (map widen (digest_inputs message)) (Mixer seed0 seed1))
  /\ Z.of_nat (List.length (digest_inputs message)) = 128 * numBlocks L.
Proof.
  intros message L. split; [reflexivity|].
  apply (digest_generator_calls message). reflexivity.
Defined.

Lemma hashBlock_state_injective_witness :
  let block := list_byte_of_string "abcdefgh" in
  let st := Mixer seed0 seed1 in
  (8 <= List.length block)%nat /\ mixer_ok st
  /\ snd (hashBlock block 8 st) = snd (hashBlock block 8 st)
  /\ st = st.
Proof.
  intros block st.
  assert (Hn : (8 <= List.length block)%nat) by (cbn; lia).
  assert (Hok : mixer_ok st) by (repeat split; discriminate).
  split; [exact Hn|split; [exact Hok|split; [reflexivity|]]].
  apply (hashBlock_state_injective block 8 st st Hn Hok Hok). reflexivity.
Defined.

Lemma hashBlock_reads_prefix_witness :
  let block := list_byte_of_string "abcdefgh-one" in
  let block' := list_byte_of_string "abcdefgh-two" in
  (8 <= List.length block)%nat /\ (8 <= List.length block')%nat
  /\ firstn 8 block = firstn 8 block'
  /\ hashBlock block 8 initial_mixer = hashBlock block' 8 initial_mixer.
Proof.
  intros block block'.
  assert (Hn : (8 <= List.length block)%nat) by (cbn; lia).
  assert (Hn' : (8 <= List.length block')%nat) by (cbn; lia).
  split; [exact Hn|split; [exact Hn'|split; [reflexivity|]]].
  apply (hashBlock_reads_prefix block block' 8 initial_mixer Hn Hn').
  reflexivity.
Defined.

Lemma count_loop_popcount_witness :
  (64 <= 100)%nat /\ u64 0xff00ff
  /\ count_loop 100 0xff00ff 7 = (0, 7 + bits_set 64 0xff00ff).
Proof.
  assert (Hf : (64 <= 100)%nat) by lia.
  assert (Hx : u64 0xff00ff) by (split; [discriminate|reflexivity]).
  split; [exact Hf|split; [exact Hx|]].
  apply (count_loop_popcount 100 0xff00ff 7 Hf Hx).
Defined.

Lemma hammingDistance_ignores_suffix_witness :
  well_formed_digest empty_digest = true /\ well_formed_digest zeros64 = true
  /\ hammingDistance (empty_digest ++ "f") (zeros64 ++ " and more") [] [] =
     hammingDistance empty_digest zeros64 [] [].
Proof.
  split; [reflexivity|split; [reflexivity|]].
  apply (hammingDistance_ignores_suffix empty_digest zeros64); reflexivity.
Defined.

Lemma hash_length_wraps_witness :
  let message := list_byte_of_string "hello, world 1, hello, world 2, !" in
  two64 - 31 <= two64 - 1 < two64 /\ (32 <= List.length message)%nat
  /\ hash message (two64 - 1) initial_mixer =
     hash (firstn 32 message) 32 initial_mixer.
Proof.
  intros message.
  assert (HL : two64 - 31 <= two64 - 1 < two64) by (split; [discriminate|reflexivity]).
  assert (Hlen : (32 <= List.length message)%nat) by (cbn; lia).
  split; [exact HL|split; [exact Hlen|]].
  apply (hash_length_wraps message (two64 - 1) initial_mixer HL Hlen).
Defined.
